(** * cmd/logger.go: the console logger of the server

    A shallow embedding of [cmd/logger.go] (levels, the [Logger] flags,
    [trimTrace], [getTrace], [logIf], [errorIf], [fatalIf]) and of the
    library calls it makes, followed by the properties of the embedding.

    Go strings are byte sequences: they are [string]s here, one [ascii]
    per byte.  What the file takes from elsewhere (the platform's path
    separator, [fmt.Sprintf] on the caller's format, [strings.Title],
    the colour functions) is a field of the class [Collaborators]. *)

From Stdlib Require Import ZArith List String Ascii Bool Lia DecimalString.
Import ListNotations.
Local Open Scope list_scope.
Local Open Scope string_scope.

(** ** Collaborators *)

Class Collaborators : Type := {
  (** [filepath.Separator]: '/' or, on Windows, '\'. *)
  Separator : ascii;
  (** length of [filepath.VolumeName path]; always 0 outside Windows. *)
  volumeNameLen : string -> nat;
  (** the dynamic values passed as [data ...interface{}]. *)
  value : Type;
  (** [fmt.Sprintf(msg, data...)] on the caller's format string. *)
  Sprintf : string -> list value -> string;
  (** [strings.Title]. *)
  Title : string -> string;
  (** [colorRed] and [colorBold], declared elsewhere in package cmd. *)
  colorRed : string -> string;
  colorBold : string -> string
}.

(** ** package strings *)

(** [s[n:]] for [n <= len(s)]. *)
Fixpoint drop (n : nat) (s : string) : string :=
  match n, s with
  | O, _ => s
  | S n', String _ s' => drop n' s'
  | S _, EmptyString => EmptyString
  end.

(** [strings.HasPrefix(s, prefix)]. *)
Definition HasPrefix (s prefix : string) : bool := String.prefix prefix s.

(** [strings.TrimPrefix(s, prefix)]. *)
Definition TrimPrefix (s prefix : string) : string :=
  if HasPrefix s prefix then drop (String.length prefix) s else s.

(** [strings.Replace(s, string(old), string(new), -1)] for one-byte
    [old] and [new]. *)
Fixpoint ReplaceByte (s : string) (old new : ascii) : string :=
  match s with
  | EmptyString => EmptyString
  | String c s' =>
      String (if Ascii.eqb c old then new else c) (ReplaceByte s' old new)
  end.

(** [strings.Join(a, sep)]. *)
Fixpoint Join (a : list string) (sep : string) : string :=
  match a with
  | [] => ""
  | [x] => x
  | x :: rest => x ++ sep ++ Join rest sep
  end.

(** ** package fmt: the verbs with fixed formats *)

(** [%v] of an [int]. *)
Definition itoa (n : Z) : string := NilZero.string_of_int (Z.to_int n).

Fixpoint spaces (n : nat) : string :=
  match n with
  | O => ""
  | S n' => String " " (spaces n')
  end.

(** [%8v] of an [int]: right-aligned in a field of at least [width]
    bytes, never truncated. *)
Definition padLeft (width : nat) (s : string) : string :=
  spaces (width - String.length s) ++ s.

(** ** package path/filepath *)

Section Filepath.
Context `{Collaborators}.

Definition slash : ascii := "/"%char.

(** [os.IsPathSeparator]: the separator, and on Windows '/' too. *)
Definition IsPathSeparator (c : ascii) : bool :=
  Ascii.eqb c Separator || Ascii.eqb c slash.

(** [filepath.ToSlash]. *)
Definition ToSlash (path : string) : string :=
  if Ascii.eqb Separator slash then path
  else ReplaceByte path Separator slash.

(** [filepath.FromSlash]. *)
Definition FromSlash (path : string) : string :=
  if Ascii.eqb Separator slash then path
  else ReplaceByte path slash Separator.

(** What follows the last path separator of [s], if there is one. *)
Fixpoint afterLastSeparator (s : string) : option string :=
  match s with
  | EmptyString => None
  | String c s' =>
      match afterLastSeparator s' with
      | Some r => Some r
      | None => if IsPathSeparator c then Some s' else None
      end
  end.

(** The second result of [filepath.Split(path)]: the scan for the
    last separator stops at the volume name. *)
Definition SplitFile (path : string) : string :=
  let rest := drop (volumeNameLen path) path in
  match afterLastSeparator rest with
  | Some r => r
  | None => rest
  end.
End Filepath.

(** ** package unicode/utf8 *)

Definition RuneError : N := 0xFFFD%N.

Definition byteval (c : ascii) : N := N_of_ascii c.

(** The tables [first] and [acceptRanges] of the package, for a lead
    byte of 0x80 and more: the length of the sequence and the range the
    second byte must lie in; [None] for a byte that starts no rune. *)
Definition leadByte (b : N) : option (nat * N * N) :=
  (if b <? 0xC2 then None
   else if b <=? 0xDF then Some (2%nat, 0x80, 0xBF)
   else if b =? 0xE0 then Some (3%nat, 0xA0, 0xBF)
   else if b <=? 0xEC then Some (3%nat, 0x80, 0xBF)
   else if b =? 0xED then Some (3%nat, 0x80, 0x9F)
   else if b <=? 0xEF then Some (3%nat, 0x80, 0xBF)
   else if b =? 0xF0 then Some (4%nat, 0x90, 0xBF)
   else if b <=? 0xF3 then Some (4%nat, 0x80, 0xBF)
   else if b =? 0xF4 then Some (4%nat, 0x80, 0x8F)
   else None)%N.

(** A continuation byte: 0x80 to 0xBF. *)
Definition isCont (b : N) : bool := ((0x80 <=? b) && (b <=? 0xBF))%N.

(** [utf8.DecodeRuneInString]: the rune at the head of [s] and its width
    in bytes; [(RuneError, 1)] for a malformed sequence. *)
Definition DecodeRuneInString (s : string) : N * nat :=
  match s with
  | EmptyString => (RuneError, 0%nat)
  | String c0 s1 =>
      let b0 := byteval c0 in
      if (b0 <? 0x80)%N then (b0, 1%nat)
      else
        match leadByte b0 with
        | None => (RuneError, 1%nat)
        | Some (sz, lo, hi) =>
            if (String.length s <? sz)%nat then (RuneError, 1%nat)
            else
              match s1 with
              | EmptyString => (RuneError, 1%nat)
              | String c1 s2 =>
                  let b1 := byteval c1 in
                  if ((b1 <? lo) || (hi <? b1))%N then (RuneError, 1%nat)
                  else if (sz <=? 2)%nat then
                    (N.lor (N.shiftl (N.land b0 0x1F) 6) (N.land b1 0x3F),
                     2%nat)
                  else
                    match s2 with
                    | EmptyString => (RuneError, 1%nat)
                    | String c2 s3 =>
                        let b2 := byteval c2 in
                        if negb (isCont b2) then (RuneError, 1%nat)
                        else if (sz <=? 3)%nat then
                          (N.lor (N.shiftl (N.land b0 0x0F) 12)
                             (N.lor (N.shiftl (N.land b1 0x3F) 6)
                                (N.land b2 0x3F)), 3%nat)
                        else
                          match s3 with
                          | EmptyString => (RuneError, 1%nat)
                          | String c3 _ =>
                              let b3 := byteval c3 in
                              if negb (isCont b3) then (RuneError, 1%nat)
                              else
                                (N.lor (N.shiftl (N.land b0 0x07) 18)
                                   (N.lor (N.shiftl (N.land b1 0x3F) 12)
                                      (N.lor (N.shiftl (N.land b2 0x3F) 6)
                                         (N.land b3 0x3F))), 4%nat)
                          end
                    end
              end
        end
  end.

(** ** package encoding/json, as [json.Marshal] uses it on a [logEntry] *)

Definition dquote : ascii := "034"%char.
Definition backslash : ascii := "\"%char.
Definition newline : ascii := "010"%char.

(** [s[:n]]. *)
Fixpoint take (n : nat) (s : string) : string :=
  match n, s with
  | S n', String c s' => String c (take n' s')
  | _, _ => EmptyString
  end.

(** The digit [hex[n]] of the encoder, [n < 16]. *)
Definition hexDigit (n : N) : ascii :=
  if (n <? 10)%N then ascii_of_N (48 + n) else ascii_of_N (87 + n).

(** [htmlSafeSet[b]] for [b < 0x80]: printable, and none of the quote,
    the backslash, '<', '>' and '&'. *)
Definition htmlSafe (b : N) : bool :=
  ((0x20 <=? b) && negb (b =? 0x22) && negb (b =? 0x5C)
   && negb (b =? 0x3C) && negb (b =? 0x3E) && negb (b =? 0x26))%N.

(** What the encoder writes for a byte below 0x80 that is not in
    [htmlSafeSet]. *)
Definition escapeByte (c : ascii) : string :=
  let b := byteval c in
  if ((b =? 0x5C) || (b =? 0x22))%N then String backslash (String c "")
  else if (b =? 0x0A)%N then "\n"
  else if (b =? 0x0D)%N then "\r"
  else if (b =? 0x09)%N then "\t"
  else "\u00" ++ String (hexDigit (N.shiftr b 4))
                   (String (hexDigit (N.land b 0xF)) "").

(** The loop of the method [string] of [encodeState] with [escapeHTML] set, one step
    per iteration of [for i := 0; i < len(s);]; [s] is [s[i:]].  The
    source copies the unescaped runs [s[start:i]] in one piece, here they
    are copied as they are passed. *)
Fixpoint encodeLoop (fuel : nat) (s : string) : string :=
  match fuel with
  | O => ""
  | S fuel' =>
      match s with
      | EmptyString => ""
      | String c s' =>
          let b := byteval c in
          if (b <? 0x80)%N then
            (if htmlSafe b then String c "" else escapeByte c)
              ++ encodeLoop fuel' s'
          else
            let '(r, size) := DecodeRuneInString s in
            if (r =? RuneError)%N && (size =? 1)%nat then
              "\uff" ++ "fd" ++ encodeLoop fuel' s'
            else if ((r =? 0x2028) || (r =? 0x2029))%N then
              "\u202" ++ String (hexDigit (N.land r 0xF)) ""
                ++ encodeLoop fuel' (drop size s)
            else take size s ++ encodeLoop fuel' (drop size s)
      end
  end.

(** The method [string(s, true)] of [encodeState]: a JSON string literal. *)
Definition encodeString (s : string) : string :=
  String dquote (encodeLoop (String.length s) s ++ String dquote "").

(** The documents the encoder writes for a [logEntry]: strings, the
    [null] of a nil slice, arrays, objects with their members in order. *)
#[warnings="-register-all"]
Inductive JSON : Type :=
| JNull
| JString (s : string)
| JArray (elements : list JSON)
| JObject (members : list (string * JSON)).

(** The bytes of a document, as the encoder writes them: compact, keys
    and strings escaped alike. *)
Fixpoint render (v : JSON) : string :=
  match v with
  | JNull => "null"
  | JString s => encodeString s
  | JArray elements => "[" ++ Join (map render elements) "," ++ "]"
  | JObject members =>
      "{" ++ Join (map (fun m => encodeString (fst m) ++ ":" ++ render (snd m))
                     members) ","
        ++ "}"
  end.

(** A [[]string] value: [null] for the nil slice, an array otherwise.
    A slice that [append] never touched is nil. *)
Definition stringsJSON (a : list string) : JSON :=
  match a with
  | [] => JNull
  | _ => JArray (map JString a)
  end.

(** The member of an object under a name. *)
Fixpoint lookupMember (name : string) (members : list (string * JSON))
  : option JSON :=
  match members with
  | [] => None
  | (k, v) :: rest => if String.eqb k name then Some v else lookupMember name rest
  end.

Definition member (name : string) (doc : JSON) : option JSON :=
  match doc with
  | JObject members => lookupMember name members
  | _ => None
  end.

Definition memberNames (doc : JSON) : list string :=
  match doc with
  | JObject members => map fst members
  | _ => []
  end.

Definition isJString (v : JSON) : bool :=
  match v with
  | JString _ => true
  | _ => false
  end.

(** An array whose elements are all strings. *)
Definition isStringArray (v : JSON) : bool :=
  match v with
  | JArray elements => forallb isJString elements
  | _ => false
  end.

(** ** A recogniser of JSON texts (RFC 8259)

    One pass over the bytes with a stack of the open arrays and objects.
    It checks the grammar; the bytes of 0x80 and more inside a string are
    taken as they come. *)

Inductive Ctx : Type := InArray | InObject.

Inductive Mode : Type :=
| WantValue
| WantValueOrClose
| WantKeyOrClose
| WantKey
| WantColon
| AfterValue
| InStr (key : bool)
| InEsc (key : bool)
| InHex (n : nat) (key : bool)
| InLit (rest : string)
| NumMinus
| NumZero
| NumInt
| NumDot
| NumFrac
| NumE
| NumESign
| NumExp.

Definition isWS (c : ascii) : bool :=
  let b := byteval c in
  ((b =? 0x20) || (b =? 0x09) || (b =? 0x0A) || (b =? 0x0D))%N.

Definition isDigit (c : ascii) : bool :=
  let b := byteval c in ((48 <=? b) && (b <=? 57))%N.

Definition isHex (c : ascii) : bool :=
  let b := byteval c in
  (((48 <=? b) && (b <=? 57)) || ((97 <=? b) && (b <=? 102))
   || ((65 <=? b) && (b <=? 70)))%N.

Definition isExp (c : ascii) : bool :=
  Ascii.eqb c "e" || Ascii.eqb c "E".

Definition isSimpleEscape (c : ascii) : bool :=
  Ascii.eqb c dquote || Ascii.eqb c backslash || Ascii.eqb c "/"
  || Ascii.eqb c "b" || Ascii.eqb c "f" || Ascii.eqb c "n"
  || Ascii.eqb c "r" || Ascii.eqb c "t".

Definition State : Type := (Mode * list Ctx)%type.

Definition startValue (c : ascii) (stk : list Ctx) : option State :=
  if Ascii.eqb c dquote then Some (InStr false, stk)
  else if Ascii.eqb c "[" then Some (WantValueOrClose, InArray :: stk)
  else if Ascii.eqb c "{" then Some (WantKeyOrClose, InObject :: stk)
  else if Ascii.eqb c "t" then Some (InLit "rue", stk)
  else if Ascii.eqb c "f" then Some (InLit "alse", stk)
  else if Ascii.eqb c "n" then Some (InLit "ull", stk)
  else if Ascii.eqb c "-" then Some (NumMinus, stk)
  else if Ascii.eqb c "0" then Some (NumZero, stk)
  else if isDigit c then Some (NumInt, stk)
  else None.

Definition closeArray (stk : list Ctx) : option State :=
  match stk with
  | InArray :: stk' => Some (AfterValue, stk')
  | _ => None
  end.

Definition closeObject (stk : list Ctx) : option State :=
  match stk with
  | InObject :: stk' => Some (AfterValue, stk')
  | _ => None
  end.

Definition afterValue (c : ascii) (stk : list Ctx) : option State :=
  if isWS c then Some (AfterValue, stk)
  else if Ascii.eqb c "," then
    match stk with
    | InArray :: _ => Some (WantValue, stk)
    | InObject :: _ => Some (WantKey, stk)
    | [] => None
    end
  else if Ascii.eqb c "]" then closeArray stk
  else if Ascii.eqb c "}" then closeObject stk
  else None.

Definition step (st : State) (c : ascii) : option State :=
  let '(m, stk) := st in
  match m with
  | WantValue => if isWS c then Some st else startValue c stk
  | WantValueOrClose =>
      if isWS c then Some st
      else if Ascii.eqb c "]" then closeArray stk
      else startValue c stk
  | WantKeyOrClose =>
      if isWS c then Some st
      else if Ascii.eqb c "}" then closeObject stk
      else if Ascii.eqb c dquote then Some (InStr true, stk)
      else None
  | WantKey =>
      if isWS c then Some st
      else if Ascii.eqb c dquote then Some (InStr true, stk)
      else None
  | WantColon =>
      if isWS c then Some st
      else if Ascii.eqb c ":" then Some (WantValue, stk)
      else None
  | AfterValue => afterValue c stk
  | InStr key =>
      if Ascii.eqb c dquote then
        Some (if key then WantColon else AfterValue, stk)
      else if Ascii.eqb c backslash then Some (InEsc key, stk)
      else if (byteval c <? 0x20)%N then None
      else Some st
  | InEsc key =>
      if isSimpleEscape c then Some (InStr key, stk)
      else if Ascii.eqb c "u" then Some (InHex 4 key, stk)
      else None
  | InHex n key =>
      if isHex c then
        Some (match n with
              | S (S n') => InHex (S n') key
              | _ => InStr key
              end, stk)
      else None
  | InLit rest =>
      match rest with
      | String d rest' =>
          if Ascii.eqb c d then
            Some (match rest' with
                  | EmptyString => AfterValue
                  | _ => InLit rest'
                  end, stk)
          else None
      | EmptyString => None
      end
  | NumMinus =>
      if Ascii.eqb c "0" then Some (NumZero, stk)
      else if isDigit c then Some (NumInt, stk)
      else None
  | NumZero =>
      if Ascii.eqb c "." then Some (NumDot, stk)
      else if isExp c then Some (NumE, stk)
      else afterValue c stk
  | NumInt =>
      if isDigit c then Some st
      else if Ascii.eqb c "." then Some (NumDot, stk)
      else if isExp c then Some (NumE, stk)
      else afterValue c stk
  | NumDot => if isDigit c then Some (NumFrac, stk) else None
  | NumFrac =>
      if isDigit c then Some st
      else if isExp c then Some (NumE, stk)
      else afterValue c stk
  | NumE =>
      if Ascii.eqb c "+" || Ascii.eqb c "-" then Some (NumESign, stk)
      else if isDigit c then Some (NumExp, stk)
      else None
  | NumESign => if isDigit c then Some (NumExp, stk) else None
  | NumExp => if isDigit c then Some st else afterValue c stk
  end.

Fixpoint exec (st : State) (s : string) : option State :=
  match s with
  | EmptyString => Some st
  | String c rest =>
      match step st c with
      | Some st' => exec st' rest
      | None => None
      end
  end.

Definition accepting (st : State) : bool :=
  match st with
  | (AfterValue, []) | (NumZero, []) | (NumInt, [])
  | (NumFrac, []) | (NumExp, []) => true
  | _ => false
  end.

(** [s] is one JSON value, with blanks around it or not. *)
Definition jsonValid (s : string) : bool :=
  match exec (WantValue, []) s with
  | Some st => accepting st
  | None => false
  end.

(** No byte of [s] is a control byte: [s] is one line. *)
Fixpoint oneLine (s : string) : bool :=
  match s with
  | EmptyString => true
  | String c rest => (0x20 <=? byteval c)%N && oneLine rest
  end.

(** Every byte of [s] is 0x80 or more. *)
Fixpoint allHigh (s : string) : bool :=
  match s with
  | EmptyString => true
  | String c rest => (0x80 <=? byteval c)%N && allHigh rest
  end.

(** Where a value may start. *)
Definition startsValue (m : Mode) : bool :=
  match m with
  | WantValue | WantValueOrClose => true
  | _ => false
  end.

Definition startsKey (m : Mode) : bool :=
  match m with
  | WantKey | WantKeyOrClose => true
  | _ => false
  end.

(** From a place where a value may start, the recogniser reads the
    bytes of [v] as one value and is left after it. *)
Definition rendersTo (v : JSON) : Prop :=
  forall m stk, startsValue m = true ->
    exec (m, stk) (render v) = Some (AfterValue, stk).

(** ** The error values [logIf] receives *)

(** The dynamic types the type switch of [isErrIgnored] names (they are
    declared elsewhere in package cmd), and any other type. *)
Inductive ErrType : Type :=
| BucketNotFound
| BucketNotEmpty
| BucketExists
| ObjectNotFound
| ObjectExistsAsDirectory
| BucketPolicyNotFound
| InvalidUploadID
| OtherType (name : string).

(** A non-nil [error] whose [Error()] method returns: a value of some
    dynamic type whose [Error()] returns [text], or a wrapping layer
    around a cause, with an [Error()] text of its own.  A value whose
    [Error()] panics is no [error], see [ErrorValue] below. *)
Inductive error : Type :=
| Plain (ty : ErrType) (text : string)
| Wrapped (text : string) (cause : error).

(** The method [Error()] of the interface, on the values where it
    returns. *)
Definition errorText (err : error) : string :=
  match err with
  | Plain _ text => text
  | Wrapped text _ => text
  end.

(** Modelled from the spec: [errors.Cause] of pkg/errors, which is not
    among the sources; it unwraps until no further cause. *)
Fixpoint Cause (err : error) : error :=
  match err with
  | Plain _ _ => err
  | Wrapped _ cause => Cause cause
  end.

(** Every wrapping layer of [err] gives the text of its cause as its
    own, as a wrapper does whose [Error()] returns [Cause.Error()]. *)
Fixpoint transparent (err : error) : bool :=
  match err with
  | Plain _ _ => true
  | Wrapped text cause =>
      String.eqb text (errorText cause) && transparent cause
  end.

(** The types the type switch of [isErrIgnored] lists. *)
Definition ignoredTypes : list ErrType :=
  [BucketNotFound; BucketNotEmpty; BucketExists;
   ObjectNotFound; ObjectExistsAsDirectory;
   BucketPolicyNotFound; InvalidUploadID].

(** The type switch of [isErrIgnored] on a dynamic type. *)
Definition typeIgnored (ty : ErrType) : bool :=
  match ty with
  | BucketNotFound | BucketNotEmpty | BucketExists => true
  | ObjectNotFound | ObjectExistsAsDirectory => true
  | BucketPolicyNotFound | InvalidUploadID => true
  | OtherType _ => false
  end.

(** What a caller can pass as [err error]: nil; an error whose
    [Error()] returns; or a non-nil value whose [Error()] panics, such as
    a nil pointer held in the interface, which passes [err == nil] and
    whose method dereferences it.  Of the last only the dynamic type of
    the root cause matters, the type the switch of [isErrIgnored]
    looks at. *)
Inductive ErrorValue : Type :=
| NilError
| Returns (err : error)
| Raises (root : ErrType).

(** The nil error and the errors whose [Error()] returns are written
    [None] and [Some err]. *)
Definition ofOption (err : option error) : ErrorValue :=
  match err with
  | None => NilError
  | Some err => Returns err
  end.

#[warnings="-uniform-inheritance"]
Coercion ofOption : option >-> ErrorValue.

(** The dynamic type of the root cause of a non-nil value. *)
Definition rootType (v : ErrorValue) : option ErrType :=
  match v with
  | NilError => None
  | Returns err =>
      match Cause err with
      | Plain ty _ => Some ty
      | Wrapped _ _ => None
      end
  | Raises root => Some root
  end.

(** ** cmd/logger.go *)

(** [type Level int8] and its two constants. *)
Definition Level : Type := Z.
Definition Error : Level := 1%Z.
Definition Fatal : Level := 2%Z.

Definition Level_String (level : Level) : string :=
  if (level =? Error)%Z then "ERROR"
  else if (level =? Fatal)%Z then "FATAL"
  else "".

Record logEntry : Type := {
  le_Level : string;
  le_Message : string;
  le_Time : string;
  le_Cause : string;
  le_Trace : list string
}.

(** The document of a [logEntry]: its fields in the order of the struct,
    under the names of their [json] tags. *)
Definition logEntryJSON (e : logEntry) : JSON :=
  JObject [("level", JString (le_Level e));
           ("message", JString (le_Message e));
           ("time", JString (le_Time e));
           ("cause", JString (le_Cause e));
           ("trace", stringsJSON (le_Trace e))].

(** The Go values the encoder of [json.Marshal] walks, by the kinds it
    tells apart: a string, a nil slice, a slice, a struct by the names
    of the [json] tags of its fields, and a value of a type it has no
    encoder for (a channel, a function, a complex number). *)
#[warnings="-register-all"]
Inductive MarshalValue : Type :=
| MString (s : string)
| MNilSlice
| MSlice (elements : list MarshalValue)
| MStruct (fields : list (string * MarshalValue))
| MUnsupported (typeName : string).

(** The walk of the encoder: the document, or the text of the
    [UnsupportedTypeError] of the first value it cannot encode. *)
Fixpoint encodeValue (v : MarshalValue) : JSON + string :=
  match v with
  | MString s => inl (JString s)
  | MNilSlice => inl JNull
  | MSlice elements =>
      match
        (fix encodeElements (l : list MarshalValue) : list JSON + string :=
           match l with
           | [] => inl []
           | x :: rest =>
               match encodeValue x with
               | inl doc =>
                   match encodeElements rest with
                   | inl docs => inl (doc :: docs)
                   | inr err => inr err
                   end
               | inr err => inr err
               end
           end) elements
      with
      | inl docs => inl (JArray docs)
      | inr err => inr err
      end
  | MStruct fields =>
      match
        (fix encodeFields (l : list (string * MarshalValue))
           : list (string * JSON) + string :=
           match l with
           | [] => inl []
           | (name, x) :: rest =>
               match encodeValue x with
               | inl doc =>
                   match encodeFields rest with
                   | inl docs => inl ((name, doc) :: docs)
                   | inr err => inr err
                   end
               | inr err => inr err
               end
           end) fields
      with
      | inl docs => inl (JObject docs)
      | inr err => inr err
      end
  | MUnsupported typeName => inr ("json: unsupported type: " ++ typeName)
  end.

(** A [[]string]: the slice that was never appended to is nil. *)
Definition stringsValue (a : list string) : MarshalValue :=
  match a with
  | [] => MNilSlice
  | _ => MSlice (map MString a)
  end.

(** A [logEntry] as the encoder sees it. *)
Definition logEntryValue (e : logEntry) : MarshalValue :=
  MStruct [("level", MString (le_Level e));
            ("message", MString (le_Message e));
            ("time", MString (le_Time e));
            ("cause", MString (le_Cause e));
            ("trace", stringsValue (le_Trace e))].

(** [json.Marshal] on a [*logEntry]: the bytes, or the text of the
    error. *)
Definition Marshal (e : logEntry) : string + string :=
  match encodeValue (logEntryValue e) with
  | inl doc => inl (render doc)
  | inr err => inr err
  end.

Record Logger : Type := { quiet : bool; json : bool }.

Definition NewLogger : Logger := {| quiet := false; json := false |}.

Definition EnableQuiet (log : Logger) : Logger :=
  {| quiet := true; json := json log |}.

Definition EnableJSON (log : Logger) : Logger :=
  {| quiet := true; json := true |}.

(** The calls that change a [Logger], and a startup that makes any
    number of them in any order. *)
Inductive Config : Type :=
| CallEnableQuiet
| CallEnableJSON.

Definition configure (log : Logger) (c : Config) : Logger :=
  match c with
  | CallEnableQuiet => EnableQuiet log
  | CallEnableJSON => EnableJSON log
  end.

Definition configureAll (calls : list Config) (log : Logger) : Logger :=
  fold_left configure calls log.

(** One entry of the call stack: what [runtime.Caller] and
    [runtime.FuncForPC(pc).Name()] give for it. *)
Record Frame : Type := {
  frame_func : string;
  frame_file : string;
  frame_line : Z
}.

(** [runtime.Caller(skip)] on the stack as [getTrace] sees it: entry 0
    is [getTrace] itself, entry 1 its caller, and so on; [None] is
    [ok == false]. *)
Definition Caller (stack : list Frame) (skip : nat) : option Frame :=
  nth_error stack skip.

(** How a call ends.  [ErrorMethodPanic] is the panic that [err.Error()]
    raises on a value of [Raises]. *)
Inductive Panic : Type :=
| IndexOutOfRange
| PanicString (s : string)
| ErrorMethodPanic.

Inductive Completion : Type :=
| Returned
| Exited (code : Z)
| Panicked (p : Panic).

Section Logger.
Context `{Collaborators}.

(** What a call does to the outside, in order. *)
Inductive Effect : Type :=
| ConsolePrintln (args : list value)
| ConsolePrintf (format : string) (args : list value)
| StdoutWrite (s : string).

Definition Println (log : Logger) (args : list value) : list Effect :=
  if negb (quiet log) then [ConsolePrintln args] else [].

Definition Printf (log : Logger) (format : string) (args : list value)
  : list Effect :=
  if negb (quiet log) then [ConsolePrintf format args] else [].

(** The loop of [trimTrace] over the rest of [trimStrings]. *)
Fixpoint trimLoop (trimStrings : list string) (f : string) : string :=
  match trimStrings with
  | [] => f
  | trimString :: rest =>
      trimLoop rest (TrimPrefix (ToSlash f) (ToSlash trimString))
  end.

Definition trimTrace (trimStrings : list string) (f : string) : string :=
  FromSlash (trimLoop trimStrings f).

(** The first entry of [trimStrings] that, in slash form, is a prefix
    of [s]: what is left of [s] without it, and the entries after it. *)
Fixpoint firstMatch (trimStrings : list string) (s : string)
  : option (string * list string) :=
  match trimStrings with
  | [] => None
  | trimString :: rest =>
      if HasPrefix s (ToSlash trimString)
      then Some (drop (String.length (ToSlash trimString)) s, rest)
      else firstMatch rest s
  end.

(** The path normaliser as the specification words it: the first
    matching prefix is stripped and nothing else, and a path that no
    prefix matches is returned as it came. *)
Definition trimTraceSpec (trimStrings : list string) (f : string)
  : string :=
  match firstMatch trimStrings (ToSlash f) with
  | Some (r, _) => FromSlash r
  | None => f
  end.

(** The body of the loop of [getTrace] on one frame: the file is
    trimmed, the function name cut to what follows its last separator,
    and the line is appended unless the frame is an autogenerated or a
    runtime one. *)
Definition appendFrame (trimStrings : list string) (fr : Frame)
    (trace : list string) : list string :=
  let file := trimTrace trimStrings (frame_file fr) in
  let funcName := SplitFile (frame_func fr) in
  if negb (HasPrefix file "<autogenerated>")
     && negb (HasPrefix funcName "runtime.")
  then
    List.app trace
      [file ++ ":" ++ itoa (frame_line fr) ++ ":" ++ funcName ++ "()"]
  else trace.

(** [for ok { ...; traceLevel++; ... = runtime.Caller(traceLevel) }]:
    one unit of fuel per iteration. *)
Fixpoint getTraceLoop (fuel : nat) (trimStrings : list string)
    (stack : list Frame) (traceLevel : nat) (trace : list string)
  : list string :=
  match fuel with
  | O => trace
  | S fuel' =>
      match Caller stack traceLevel with
      | None => trace
      | Some fr =>
          getTraceLoop fuel' trimStrings stack (S traceLevel)
            (appendFrame trimStrings fr trace)
      end
  end.

(** [getTrace]: the loop cannot run more often than the stack has
    frames. *)
Definition getTrace (trimStrings : list string) (stack : list Frame)
    (traceLevel : nat) : list string :=
  getTraceLoop (List.length stack) trimStrings stack traceLevel [].

Definition isErrIgnored (err : error) : bool :=
  match Cause err with
  | Plain ty _ =>
      match ty with
      | BucketNotFound | BucketNotEmpty | BucketExists => true
      | ObjectNotFound | ObjectExistsAsDirectory => true
      | BucketPolicyNotFound | InvalidUploadID => true
      | OtherType _ => false
      end
  | Wrapped _ _ => false
  end.

(** [for i, element := range trace[1:]]: the entries from the second
    on, [i] counting from 0. *)
Fixpoint numberRest (i : Z) (elements : list string) : list string :=
  match elements with
  | [] => []
  | element :: rest =>
      (padLeft 8 (itoa (i + 2)) ++ ": " ++ element)
        :: numberRest (i + 1) rest
  end.

Definition nl : string := String newline "".

(** The package state [logIf] reads, and what the call finds around
    it: the call stack as [getTrace] will see it, and the result of
    [UTCNow().Format(time.RFC3339Nano)]. *)
Record Ambient : Type := {
  log : Logger;
  trimStrings : list string;
  stack : list Frame;
  timeOfError : string
}.

(** The five values [logIf] computes before it renders: the level by
    name, the interpolated message, the time, the cause and the
    trace.  The JSON branch stores them in a [logEntry], the text
    branch formats the same values. *)
Definition entryOf (a : Ambient) (level : Level) (err : error)
    (msg : string) (data : list value) : logEntry :=
  let cause := Title (errorText err) in
  let trace := getTrace (trimStrings a) (stack a) 3 in
  let message := Sprintf msg data in
  {| le_Level := Level_String level;
     le_Message := message;
     le_Time := timeOfError a;
     le_Cause := cause;
     le_Trace := trace |}.

(** The branch [if log.json]: the marshalled entry, or the panic on a
    marshalling error. *)
Definition formatJSON (e : logEntry) : string + Panic :=
  match Marshal e with
  | inl logJSON => inl logJSON
  | inr err =>
      inr (PanicString ("json marshal of logEntry failed: " ++ err))
  end.

(** The branch [else]: [trace[0]] panics on an empty trace. *)
Definition formatText (e : logEntry) : string + Panic :=
  match le_Trace e with
  | [] => inr IndexOutOfRange
  | first :: rest =>
      let trace := ("1: " ++ first) :: numberRest 0 rest in
      let errMsg :=
        "[" ++ le_Time e ++ "] [" ++ le_Level e ++ "] "
          ++ le_Message e ++ " (" ++ le_Cause e ++ ")" in
      inl (nl ++ "Trace: " ++ Join trace nl ++ nl
             ++ colorRed (colorBold errMsg))
  end.

(** The end of [logIf]: a panic while rendering ends the call with
    nothing written; otherwise [fmt.Println(output)] writes [output] and
    a newline to the standard output, and [os.Exit(1)] follows at level
    [Fatal]. *)
Definition finish (level : Level) (rendered : string + Panic)
  : list Effect * Completion :=
  match rendered with
  | inr p => ([], Panicked p)
  | inl output =>
      ([StdoutWrite (output ++ nl)],
       if (level =? Fatal)%Z then Exited 1 else Returned)
  end.

(** [logIf].  The result is what was written and how the call ended.
    After the test [err == nil || isErrIgnored(err)] the first thing the
    call does is [err.Error()], for the cause: on a value whose
    [Error()] panics the call ends there, in either mode, with nothing
    written. *)
Definition logIf (a : Ambient) (level : Level) (err : ErrorValue)
    (msg : string) (data : list value) : list Effect * Completion :=
  match err with
  | NilError => ([], Returned)
  | Returns err =>
      if isErrIgnored err then ([], Returned)
      else
        let entry := entryOf a level err msg data in
        finish level
          (if json (log a) then formatJSON entry else formatText entry)
  | Raises root =>
      if typeIgnored root then ([], Returned)
      else ([], Panicked ErrorMethodPanic)
  end.

Definition errorIf (a : Ambient) (err : ErrorValue) (msg : string)
    (data : list value) : list Effect * Completion :=
  logIf a Error err msg data.

Definition fatalIf (a : Ambient) (err : ErrorValue) (msg : string)
    (data : list value) : list Effect * Completion :=
  logIf a Fatal err msg data.
End Logger.

(** ** One choice of collaborators, for running the model

    A Unix build ('/' separates, no volume names), arguments that are
    strings or ints, [fmt.Sprintf] for the verbs [%s], [%d], [%v] and
    [%%] without flags, [strings.Title] as it acts on ASCII text, and
    the colour functions writing their ANSI sequences. *)

Inductive GoValue : Type :=
| VString (s : string)
| VInt (n : Z).

(** [type=value], as the bad-verb and extra-argument reports print an
    operand. *)
Definition showTyped (v : GoValue) : string :=
  match v with
  | VString s => "string=" ++ s
  | VInt n => "int=" ++ itoa n
  end.

Definition percent : ascii := "%"%char.

(** One verb applied to the next operand. *)
Definition applyVerb (verb : ascii) (v : GoValue) : string :=
  match v with
  | VString s =>
      if Ascii.eqb verb "s" || Ascii.eqb verb "v" then s
      else "%!" ++ String verb ("(" ++ showTyped v ++ ")")
  | VInt n =>
      if Ascii.eqb verb "d" || Ascii.eqb verb "v" then itoa n
      else "%!" ++ String verb ("(" ++ showTyped v ++ ")")
  end.

Fixpoint sprintfLoop (format : string) (args : list GoValue)
  : string * list GoValue :=
  match format with
  | EmptyString => ("", args)
  | String c rest =>
      if Ascii.eqb c percent then
        match rest with
        | EmptyString => ("%!(NOVERB)", args)
        | String verb rest' =>
            if Ascii.eqb verb percent then
              let '(out, unused) := sprintfLoop rest' args in
              (String percent out, unused)
            else
              match args with
              | [] =>
                  let '(out, unused) := sprintfLoop rest' [] in
                  ("%!" ++ String verb "(MISSING)" ++ out, unused)
              | v :: args' =>
                  let '(out, unused) := sprintfLoop rest' args' in
                  (applyVerb verb v ++ out, unused)
              end
        end
      else
        let '(out, unused) := sprintfLoop rest args in
        (String c out, unused)
  end.

Definition unixSprintf (format : string) (args : list GoValue) : string :=
  let '(out, unused) := sprintfLoop format args in
  match unused with
  | [] => out
  | _ => out ++ "%!(EXTRA " ++ Join (map showTyped unused) ", " ++ ")"
  end.

(** [isSeparator] of package strings on a byte below 0x80: letters,
    digits and the underscore are no separators. *)
Definition isSeparator (c : ascii) : bool :=
  let b := byteval c in
  negb (((48 <=? b) && (b <=? 57)) || ((97 <=? b) && (b <=? 122))
        || ((65 <=? b) && (b <=? 90)) || (b =? 95))%N.

(** [unicode.ToTitle] on a byte below 0x80. *)
Definition toTitle (c : ascii) : ascii :=
  let b := byteval c in
  if ((97 <=? b) && (b <=? 122))%N then ascii_of_N (b - 32) else c.

Fixpoint titleLoop (prev : ascii) (s : string) : string :=
  match s with
  | EmptyString => EmptyString
  | String c rest =>
      String (if isSeparator prev then toTitle c else c) (titleLoop c rest)
  end.

Definition asciiTitle (s : string) : string := titleLoop " "%char s.

Definition esc : ascii := "027"%char.

Definition ansi (code : string) (s : string) : string :=
  String esc ("[" ++ code ++ "m") ++ s ++ String esc "[0m".

Definition unix : Collaborators := {|
  Separator := "/"%char;
  volumeNameLen := fun _ => 0%nat;
  value := GoValue;
  Sprintf := unixSprintf;
  Title := asciiTitle;
  colorRed := ansi "31";
  colorBold := ansi "1"
|}.

(** The same on Windows, where '\' separates; volume names do not occur
    in the paths used below. *)
Definition windows : Collaborators := {|
  Separator := "\"%char;
  volumeNameLen := fun _ => 0%nat;
  value := GoValue;
  Sprintf := unixSprintf;
  Title := asciiTitle;
  colorRed := ansi "31";
  colorBold := ansi "1"
|}.

(** A Go installation in /usr/local/go, a GOPATH of /go: what [init]
    leaves in [trimStrings] there. *)
Definition demoTrimStrings : list string :=
  ["/usr/local/go/src/"; "/go/src/"; "github.com/minio/minio/"].

(** An error of no listed type, and the same under a wrapping layer that
    has a text of its own. *)
Definition diskFull : error :=
  Plain (OtherType "*errors.errorString") "disk full".

Definition wrappedDiskFull : error := Wrapped "write failed" diskFull.

(** The same error under a layer that gives the text of its cause as
    its own. *)
Definition tracedDiskFull : error := Wrapped "disk full" diskFull.

(** A nil [*os.PathError] held in the interface: it is not [nil], and
    its [Error()] dereferences the pointer. *)
Definition nilPathError : ErrorValue := Raises (OtherType "*os.PathError").

Definition frame (name file : string) (line : Z) : Frame :=
  {| frame_func := name; frame_file := file; frame_line := line |}.

(** The innermost frames of any call that reaches [getTrace] through
    [errorIf]. *)
Definition loggerFrames : list Frame :=
  [frame "github.com/minio/minio/cmd.getTrace"
     "/go/src/github.com/minio/minio/cmd/logger.go" 134;
   frame "github.com/minio/minio/cmd.logIf"
     "/go/src/github.com/minio/minio/cmd/logger.go" 177;
   frame "github.com/minio/minio/cmd.errorIf"
     "/go/src/github.com/minio/minio/cmd/logger.go" 217].

(** The stack of [errorIf(err, ...)] called from a handler that [main]
    calls. *)
Definition handlerStack : list Frame :=
  (loggerFrames ++
   [frame "github.com/minio/minio/cmd.serverMain"
      "/go/src/github.com/minio/minio/cmd/server-main.go" 201;
    frame "main.main" "/go/src/github.com/minio/minio/main.go" 68;
    frame "runtime.main" "/usr/local/go/src/runtime/proc.go" 185;
    frame "runtime.goexit" "/usr/local/go/src/runtime/asm_amd64.s" 2197])%list.

(** The stack of [go errorIf(err, ...)]: the goroutine starts in
    [errorIf], above it there is only the runtime. *)
Definition goroutineStack : list Frame :=
  (loggerFrames ++
   [frame "runtime.goexit" "/usr/local/go/src/runtime/asm_amd64.s" 2197])%list.

Definition demoAmbient (log : Logger) (stack : list Frame)
  : Ambient :=
  {| log := log;
     trimStrings := demoTrimStrings;
     stack := stack;
     timeOfError := "2017-10-31T08:15:30.123456789Z" |}.

(** ** Further parts of the file, and views used to state what it does *)

(** Whether the loop of [getTrace] keeps a frame, and the line it
    appends for a frame it keeps. *)
Definition keepFrame `{Collaborators} (trimStrings : list string)
    (fr : Frame) : bool :=
  negb (HasPrefix (trimTrace trimStrings (frame_file fr)) "<autogenerated>")
  && negb (HasPrefix (SplitFile (frame_func fr)) "runtime.").

Definition frameLine `{Collaborators} (trimStrings : list string)
    (fr : Frame) : string :=
  trimTrace trimStrings (frame_file fr) ++ ":" ++ itoa (frame_line fr)
    ++ ":" ++ SplitFile (frame_func fr) ++ "()".

(** [strings.Split(s, string(sep))] for a one-byte separator: the pieces
    between the separators, one more than there are separators. *)
Fixpoint SplitByte (s : string) (sep : ascii) : list string :=
  match s with
  | EmptyString => [""]
  | String c rest =>
      if Ascii.eqb c sep then "" :: SplitByte rest sep
      else
        match SplitByte rest sep with
        | piece :: pieces => String c piece :: pieces
        | [] => [String c ""]
        end
  end.

(** [strings.Count(s, string(sep))]. *)
Fixpoint CountByte (s : string) (sep : ascii) : nat :=
  match s with
  | EmptyString => O
  | String c rest =>
      if Ascii.eqb c sep then S (CountByte rest sep) else CountByte rest sep
  end.

(** What [init] reads: [runtime.GOOS], [runtime.GOROOT()], the constant
    [GOPATH] of package cmd, and [filepath.Join]. *)
Class Build : Type := {
  GOOS : string;
  GOROOT : string;
  GOPATH : string;
  FilepathJoin : list string -> string
}.

(** The separator of the entries of [GOPATH] that [init] chooses. *)
Definition listSeparator `{Build} : ascii :=
  if String.eqb GOOS "windows" then ";"%char else ":"%char.

(** [init]: the value it leaves in [trimStrings]. *)
Definition init `{Collaborators} `{Build} : list string :=
  let goPathList :=
    if String.eqb GOOS "windows" then SplitByte GOPATH ";"
    else SplitByte GOPATH ":" in
  let trimStrings := [FilepathJoin [GOROOT; "src"] ++ String Separator ""] in
  let trimStrings :=
    fold_left
      (fun trimStrings goPathString =>
         List.app trimStrings
           [FilepathJoin [goPathString; "src"] ++ String Separator ""])
      goPathList trimStrings in
  List.app trimStrings
    [FilepathJoin ["github.com"; "minio"; "minio"] ++ String Separator ""].

(** [filepath.Clean] and [filepath.Join] where '/' separates and there
    are no volume names.  [Clean] goes through the components of the
    path: empty ones and [.] are dropped, [..] removes the component
    before it, or stays when there is none to remove and the path is
    not rooted. *)
Definition cleanStep (rooted : bool) (kept : list string) (component : string)
  : list string :=
  if String.eqb component "" || String.eqb component "." then kept
  else if String.eqb component ".." then
    match kept with
    | top :: below => if String.eqb top ".." then ".." :: kept else below
    | [] => if rooted then [] else [".."]
    end
  else component :: kept.

Definition unixClean (path : string) : string :=
  match path with
  | EmptyString => "."
  | String c _ =>
      let rooted := Ascii.eqb c "/" in
      let kept := rev (fold_left (cleanStep rooted) (SplitByte path "/") []) in
      let body := Join kept "/" in
      if rooted then "/" ++ body
      else if String.eqb body "" then "." else body
  end.

Fixpoint unixJoin (elem : list string) : string :=
  match elem with
  | [] => ""
  | e :: rest =>
      if String.eqb e "" then unixJoin rest else unixClean (Join elem "/")
  end.

(** A Go installation in /usr/local/go and a GOPATH of /go, on Linux. *)
Definition demoBuild : Build := {|
  GOOS := "linux";
  GOROOT := "/usr/local/go";
  GOPATH := "/go";
  FilepathJoin := unixJoin
|}.

(** Whether a byte of [s] is a path separator. *)
Fixpoint containsSeparator `{Collaborators} (s : string) : bool :=
  match s with
  | EmptyString => false
  | String c rest => IsPathSeparator c || containsSeparator rest
  end.

(** Whether every byte of [s] is below 0x80. *)
Fixpoint allLow (s : string) : bool :=
  match s with
  | EmptyString => true
  | String c rest => (byteval c <? 0x80)%N && allLow rest
  end.

(** ** Reading a JSON string back (RFC 8259, section 7)

    The bytes a string literal stands for: escapes are resolved, a
    [\u] escape to the UTF-8 bytes of its code point.  Escapes of
    surrogates are not read. *)

Definition hexValue (c : ascii) : option N :=
  let b := byteval c in
  (if (48 <=? b) && (b <=? 57) then Some (b - 48)
   else if (97 <=? b) && (b <=? 102) then Some (b - 87)
   else if (65 <=? b) && (b <=? 70) then Some (b - 55)
   else None)%N.

Definition simpleEscape (c : ascii) : option ascii :=
  if Ascii.eqb c dquote then Some dquote
  else if Ascii.eqb c backslash then Some backslash
  else if Ascii.eqb c "/" then Some "/"%char
  else if Ascii.eqb c "b" then Some "008"%char
  else if Ascii.eqb c "f" then Some "012"%char
  else if Ascii.eqb c "n" then Some "010"%char
  else if Ascii.eqb c "r" then Some "013"%char
  else if Ascii.eqb c "t" then Some "009"%char
  else None.

(** The UTF-8 bytes of a code point below 0x10000. *)
Definition utf8Bytes (cp : N) : string :=
  if (cp <? 0x80)%N then String (ascii_of_N cp) ""
  else if (cp <? 0x800)%N then
    String (ascii_of_N (N.lor 0xC0 (N.shiftr cp 6)))
      (String (ascii_of_N (N.lor 0x80 (N.land cp 0x3F))) "")
  else
    String (ascii_of_N (N.lor 0xE0 (N.shiftr cp 12)))
      (String (ascii_of_N (N.lor 0x80 (N.land (N.shiftr cp 6) 0x3F)))
         (String (ascii_of_N (N.lor 0x80 (N.land cp 0x3F))) "")).

(** What follows the opening quote of a literal that ends the text. *)
Fixpoint unescape (s : string) : option string :=
  match s with
  | EmptyString => None
  | String c rest =>
      if Ascii.eqb c dquote then
        match rest with
        | EmptyString => Some ""
        | _ => None
        end
      else if Ascii.eqb c backslash then
        match rest with
        | String e rest' =>
            if Ascii.eqb e "u" then
              match rest' with
              | String h1 (String h2 (String h3 (String h4 rest''))) =>
                  match hexValue h1, hexValue h2, hexValue h3, hexValue h4 with
                  | Some d1, Some d2, Some d3, Some d4 =>
                      let cp := (((d1 * 16 + d2) * 16 + d3) * 16 + d4)%N in
                      if ((0xD800 <=? cp) && (cp <=? 0xDFFF))%N then None
                      else option_map (append (utf8Bytes cp)) (unescape rest'')
                  | _, _, _, _ => None
                  end
              | _ => None
              end
            else
              match simpleEscape e with
              | Some b => option_map (String b) (unescape rest')
              | None => None
              end
        | EmptyString => None
        end
      else if (byteval c <? 0x20)%N then None
      else option_map (String c) (unescape rest)
  end.

(** The bytes of a whole string literal. *)
Definition unquote (s : string) : option string :=
  match s with
  | String q rest => if Ascii.eqb q dquote then unescape rest else None
  | EmptyString => None
  end.

(** * Properties *)

(** ** Strings *)

Lemma append_assoc (a b c : string) : (a ++ b) ++ c = a ++ b ++ c.
Proof. induction a as [|x a IH]; simpl; [reflexivity | now rewrite IH]. Qed.

Lemma drop_append (p s : string) : drop (String.length p) (p ++ s) = s.
Proof. induction p as [|c p IH]; simpl; [reflexivity | exact IH]. Qed.

Lemma prefix_append (p s : string) : String.prefix p (p ++ s) = true.
Proof.
  induction p as [|c p IH]; simpl.
  - now destruct s.
  - destruct (ascii_dec c c) as [_|ne]; [exact IH | now destruct ne].
Qed.

Lemma prefix_split (p s : string) :
  String.prefix p s = true -> s = p ++ drop (String.length p) s.
Proof.
  revert s; induction p as [|c p IH]; intros s Hp; simpl.
  - reflexivity.
  - destruct s as [|d s]; simpl in Hp; [discriminate|].
    destruct (ascii_dec c d) as [->|_]; [|discriminate].
    simpl. f_equal. now apply IH.
Qed.

Lemma HasPrefix_iff (s p : string) :
  HasPrefix s p = true <-> exists r, s = p ++ r.
Proof.
  unfold HasPrefix; split.
  - intros Hp. eexists. now apply prefix_split.
  - intros [r ->]. apply prefix_append.
Qed.

Lemma TrimPrefix_append (p r : string) : TrimPrefix (p ++ r) p = r.
Proof.
  unfold TrimPrefix, HasPrefix. rewrite prefix_append. apply drop_append.
Qed.

Lemma ReplaceByte_twice (s : string) (a b : ascii) :
  ReplaceByte (ReplaceByte s a b) a b = ReplaceByte s a b.
Proof.
  induction s as [|c s IH]; simpl; [reflexivity|]. rewrite IH. f_equal.
  destruct (Ascii.eqb c a) eqn:Hca.
  - destruct (Ascii.eqb b a); reflexivity.
  - now rewrite Hca.
Qed.

Lemma ReplaceByte_back (s : string) (a b : ascii) :
  ReplaceByte (ReplaceByte s a b) b a = ReplaceByte s b a.
Proof.
  induction s as [|c s IH]; simpl; [reflexivity|]. rewrite IH. f_equal.
  destruct (Ascii.eqb c a) eqn:Hca.
  - rewrite Ascii.eqb_refl. apply Ascii.eqb_eq in Hca. subst c.
    now destruct (Ascii.eqb a b).
  - reflexivity.
Qed.

(** ** The path normaliser *)

Section PathNormaliser.
Context `{Collaborators}.

Lemma ToSlash_idempotent (f : string) : ToSlash (ToSlash f) = ToSlash f.
Proof.
  unfold ToSlash. destruct (Ascii.eqb Separator slash); [reflexivity|].
  apply ReplaceByte_twice.
Qed.

Lemma FromSlash_idempotent (f : string) :
  FromSlash (FromSlash f) = FromSlash f.
Proof.
  unfold FromSlash. destruct (Ascii.eqb Separator slash); [reflexivity|].
  apply ReplaceByte_twice.
Qed.

Lemma FromSlash_ToSlash (f : string) : FromSlash (ToSlash f) = FromSlash f.
Proof.
  unfold FromSlash, ToSlash.
  destruct (Ascii.eqb Separator slash); [reflexivity|].
  apply ReplaceByte_back.
Qed.

(** What [firstMatch] finds: the entries before the match are no
    prefixes of [s], the match is one. *)
Lemma firstMatch_Some (l : list string) (s r : string) (rest : list string) :
  firstMatch l s = Some (r, rest) ->
  exists before t,
    l = (before ++ t :: rest)%list /\ s = ToSlash t ++ r /\
    Forall (fun u => HasPrefix s (ToSlash u) = false) before.
Proof.
  revert r rest; induction l as [|t l IH]; intros r rest Hm; simpl in Hm.
  - discriminate.
  - destruct (HasPrefix s (ToSlash t)) eqn:Hp.
    + injection Hm as <- <-. exists [], t. repeat split.
      * now apply prefix_split.
      * constructor.
    + destruct (IH _ _ Hm) as (before & u & -> & Hs & Hall).
      exists (t :: before), u. repeat split; [exact Hs|].
      now constructor.
Qed.

Lemma firstMatch_None (l : list string) (s : string) :
  firstMatch l s = None <->
  Forall (fun u => HasPrefix s (ToSlash u) = false) l.
Proof.
  induction l as [|t l IH]; simpl.
  - split; [constructor | reflexivity].
  - destruct (HasPrefix s (ToSlash t)) eqn:Hp.
    + split; [discriminate|]. intros Hall. inversion Hall; congruence.
    + rewrite IH. split; [now constructor | now inversion 1].
Qed.

(** One turn of the loop. *)
Lemma trimTrace_unfold (t : string) (l : list string) (f : string) :
  trimTrace (t :: l) f = trimTrace l (TrimPrefix (ToSlash f) (ToSlash t)).
Proof. reflexivity. Qed.
End PathNormaliser.

Section PathNormaliserClaims.
Context `{Collaborators}.

(** A path that no entry matches only has its separators changed. *)
Lemma trimTrace_unmatched (l : list string) (f : string) :
  firstMatch l (ToSlash f) = None -> trimTrace l f = FromSlash f.
Proof.
  revert f; induction l as [|t l IH]; intros f; [reflexivity|].
  simpl firstMatch. rewrite trimTrace_unfold. unfold TrimPrefix.
  destruct (HasPrefix (ToSlash f) (ToSlash t)); [discriminate|].
  intros Hnone. rewrite IH by now rewrite ToSlash_idempotent.
  apply FromSlash_ToSlash.
Qed.

(** C3 (as the code has it).  [trimTrace] strips the first entry of the
    prefix list that matches the path, both sides in slash form, and
    then goes on through the entries after it, applying them to what
    is left in the same way, so that one call can remove several
    prefixes; when no entry matches, the path comes back with its
    slashes turned into the native separator and is otherwise
    untouched. *)
Theorem trimTrace_first_match_then_rest (l : list string) (f : string) :
  trimTrace l f =
  match firstMatch l (ToSlash f) with
  | Some (r, rest) => trimTrace rest r
  | None => FromSlash f
  end.
Proof.
  revert f; induction l as [|t l IH]; intros f.
  - reflexivity.
  - rewrite trimTrace_unfold. simpl firstMatch. unfold TrimPrefix.
    destruct (HasPrefix (ToSlash f) (ToSlash t)); [reflexivity|].
    rewrite IH, ToSlash_idempotent, FromSlash_ToSlash. reflexivity.
Qed.

(** No entry matches: only the separators change. *)
Lemma trimTrace_no_match (l : list string) (f : string) :
  Forall (fun u => HasPrefix (ToSlash f) (ToSlash u) = false) l ->
  trimTrace l f = FromSlash f.
Proof.
  intros Hall. apply trimTrace_unmatched. now apply firstMatch_None.
Qed.

(** Where '/' is the separator nothing changes at all. *)
Lemma FromSlash_unix (f : string) : Separator = slash -> FromSlash f = f.
Proof. intros E. unfold FromSlash. now rewrite E, Ascii.eqb_refl. Qed.

(** The first match is stripped and the entries after it are tried on
    the rest. *)
Lemma trimTrace_match (before rest : list string) (t f r : string) :
  Forall (fun u => HasPrefix (ToSlash f) (ToSlash u) = false) before ->
  ToSlash f = ToSlash t ++ r ->
  trimTrace (before ++ t :: rest) f = trimTrace rest r.
Proof.
  revert f; induction before as [|u before IH]; intros f Hall Hf.
  - simpl. rewrite trimTrace_unfold, Hf, TrimPrefix_append. reflexivity.
  - inversion Hall as [|? ? Hu Hall']; subst.
    change ((u :: before) ++ t :: rest)%list
      with (u :: (before ++ t :: rest))%list.
    rewrite trimTrace_unfold. unfold TrimPrefix. rewrite Hu.
    apply IH; rewrite ToSlash_idempotent; assumption.
Qed.

(** C4 (as the code has it).  Normalising a normalised path again
    leaves it as it is whenever no entry of the prefix list matches
    the normalised path. *)
Theorem trimTrace_idempotent_when_unmatched (l : list string) (p : string) :
  firstMatch l (ToSlash (trimTrace l p)) = None ->
  trimTrace l (trimTrace l p) = trimTrace l p.
Proof.
  intros Hnone. rewrite (trimTrace_unmatched l (trimTrace l p) Hnone).
  unfold trimTrace. apply FromSlash_idempotent.
Qed.
End PathNormaliserClaims.

(** C3, against the claim as worded: with the prefixes of a Go
    installation in /usr/local/go and a GOPATH of /go, a file of the
    server loses its GOPATH prefix and then the import path of the
    project too, where stripping the first match alone would keep the
    latter. *)
Lemma trimTrace_strips_after_first_match :
  @trimTrace unix demoTrimStrings
    "/go/src/github.com/minio/minio/cmd/logger.go" = "cmd/logger.go"
  /\ @trimTraceSpec unix demoTrimStrings
       "/go/src/github.com/minio/minio/cmd/logger.go"
     = "github.com/minio/minio/cmd/logger.go"
  /\ @trimTrace unix demoTrimStrings
       "/go/src/github.com/minio/minio/cmd/logger.go"
     <> @trimTraceSpec unix demoTrimStrings
          "/go/src/github.com/minio/minio/cmd/logger.go".
Proof. repeat split. vm_compute. discriminate. Qed.

(** C4, against the claim as worded: a second pass strips the import
    path of the project that the first pass uncovered. *)
Lemma trimTrace_not_idempotent :
  @trimTrace unix demoTrimStrings
    "/go/src/github.com/minio/minio/github.com/minio/minio/cmd/logger.go"
  = "github.com/minio/minio/cmd/logger.go"
  /\ @trimTrace unix demoTrimStrings
       (@trimTrace unix demoTrimStrings
          "/go/src/github.com/minio/minio/github.com/minio/minio/cmd/logger.go")
     = "cmd/logger.go"
  /\ @trimTrace unix demoTrimStrings
       (@trimTrace unix demoTrimStrings
          "/go/src/github.com/minio/minio/github.com/minio/minio/cmd/logger.go")
     <> @trimTrace unix demoTrimStrings
          "/go/src/github.com/minio/minio/github.com/minio/minio/cmd/logger.go".
Proof. repeat split. vm_compute. discriminate. Qed.

(** C4 at a file of the server. *)
Lemma trimTrace_idempotent_when_unmatched_witness :
  @trimTrace unix demoTrimStrings
    (@trimTrace unix demoTrimStrings
       "/go/src/github.com/minio/minio/cmd/logger.go")
  = @trimTrace unix demoTrimStrings
      "/go/src/github.com/minio/minio/cmd/logger.go".
Proof.
  apply (@trimTrace_idempotent_when_unmatched unix demoTrimStrings
           "/go/src/github.com/minio/minio/cmd/logger.go").
  reflexivity.
Defined.

(** Where the backslash separates, the slashes of a path come back as
    backslashes, with a prefix matched or not. *)
Lemma trimTrace_windows :
  @trimTrace windows ["C:\go\src\"] "C:/go/src/fmt/print.go" = "fmt\print.go"
  /\ @trimTrace windows ["C:\go\src\"] "D:/work/tool/main.go"
     = "D:\work\tool\main.go".
Proof. split; reflexivity. Qed.

(** ** The configuration of the logger *)

Lemma configure_quiet_stays (c : Config) (log : Logger) :
  quiet log = true -> quiet (configure log c) = true.
Proof. now destruct c. Qed.

Lemma configure_json_stays (c : Config) (log : Logger) :
  json log = true -> json (configure log c) = true.
Proof. now destruct c. Qed.

Lemma configure_invariant (c : Config) (log : Logger) :
  (json log = true -> quiet log = true) ->
  json (configure log c) = true -> quiet (configure log c) = true.
Proof. destruct c; simpl; auto. Qed.

Lemma configureAll_quiet_stays (calls : list Config) (log : Logger) :
  quiet log = true -> quiet (configureAll calls log) = true.
Proof.
  revert log; induction calls as [|c calls IH]; intros log Hq; simpl.
  - exact Hq.
  - apply IH. now apply configure_quiet_stays.
Qed.

Lemma configureAll_json_stays (calls : list Config) (log : Logger) :
  json log = true -> json (configureAll calls log) = true.
Proof.
  revert log; induction calls as [|c calls IH]; intros log Hj; simpl.
  - exact Hj.
  - apply IH. now apply configure_json_stays.
Qed.

Lemma configureAll_invariant (calls : list Config) (log : Logger) :
  (json log = true -> quiet log = true) ->
  json (configureAll calls log) = true ->
  quiet (configureAll calls log) = true.
Proof.
  revert log; induction calls as [|c calls IH]; intros log Hinv; simpl.
  - exact Hinv.
  - apply IH. now apply configure_invariant.
Qed.

(** C6.  Whatever calls of [EnableQuiet] and [EnableJSON] are made on
    the new logger, in whatever order, a logger in JSON mode is quiet;
    [EnableJSON] sets both flags; each call made twice does what it does
    once; and a flag that is set stays set under any further calls. *)
Theorem logger_configuration (calls : list Config) (log : Logger) :
  quiet NewLogger = false /\ json NewLogger = false
  /\ (json (configureAll calls NewLogger) = true ->
      quiet (configureAll calls NewLogger) = true)
  /\ (quiet (EnableJSON log) = true /\ json (EnableJSON log) = true)
  /\ EnableQuiet (EnableQuiet log) = EnableQuiet log
  /\ EnableJSON (EnableJSON log) = EnableJSON log
  /\ (quiet log = true -> quiet (configureAll calls log) = true)
  /\ (json log = true -> json (configureAll calls log) = true).
Proof.
  repeat split.
  - apply configureAll_invariant. discriminate.
  - apply configureAll_quiet_stays.
  - apply configureAll_json_stays.
Qed.

(** ** The trace *)

Lemma skipn_Caller (stack : list Frame) (n : nat) (fr : Frame) :
  Caller stack n = Some fr -> skipn n stack = fr :: skipn (S n) stack.
Proof.
  unfold Caller. revert n; induction stack as [|x stack IH]; intros n Hn.
  - now destruct n.
  - destruct n as [|n]; simpl in Hn.
    + now injection Hn as ->.
    + exact (IH n Hn).
Qed.

Section Trace.
Context `{Collaborators}.

(** With fuel for the frames from [traceLevel] on, the loop ends because
    [runtime.Caller] reports no further frame, and the trace is the
    result of the loop body over these frames in order. *)
Lemma getTraceLoop_frames (fuel : nat) (ts : list string)
    (stack : list Frame) (n : nat) (trace : list string) :
  (List.length stack - n <= fuel)%nat ->
  getTraceLoop fuel ts stack n trace =
  fold_left (fun t fr => appendFrame ts fr t) (skipn n stack) trace.
Proof.
  revert n trace; induction fuel as [|fuel IH]; intros n trace Hf.
  - rewrite skipn_all2 by lia. reflexivity.
  - cbn [getTraceLoop]. destruct (Caller stack n) as [fr|] eqn:Hc.
    + rewrite (skipn_Caller stack n fr Hc). cbn [fold_left].
      apply IH. lia.
    + unfold Caller in Hc. apply nth_error_None in Hc.
      rewrite skipn_all2 by exact Hc. reflexivity.
Qed.

Lemma getTrace_frames (ts : list string) (stack : list Frame) (n : nat) :
  getTrace ts stack n =
  fold_left (fun t fr => appendFrame ts fr t) (skipn n stack) [].
Proof. apply getTraceLoop_frames. lia. Qed.

(** More fuel changes nothing. *)
Lemma getTraceLoop_enough (fuel : nat) (ts : list string)
    (stack : list Frame) (n : nat) :
  (List.length stack <= fuel)%nat ->
  getTraceLoop fuel ts stack n [] = getTrace ts stack n.
Proof.
  intros Hf. rewrite getTrace_frames. apply getTraceLoop_frames. lia.
Qed.

(** A stack with nothing but runtime and autogenerated frames from
    [traceLevel] on gives the empty trace. *)
Lemma getTrace_all_filtered (ts : list string) (stack : list Frame) (n : nat) :
  Forall (fun fr => appendFrame ts fr [] = []) (skipn n stack) ->
  getTrace ts stack n = [].
Proof.
  rewrite getTrace_frames. induction 1 as [|fr l Hfr _ IH]; [reflexivity|].
  cbn [fold_left]. now rewrite Hfr.
Qed.
End Trace.

(** ** The classifier *)

Lemma Cause_is_plain (err : error) : exists ty text, Cause err = Plain ty text.
Proof.
  induction err as [ty text | text cause IH]; simpl; [now eauto | exact IH].
Qed.

Lemma transparent_text (err : error) :
  transparent err = true -> errorText err = errorText (Cause err).
Proof.
  induction err as [ty text | text cause IH]; simpl; [reflexivity|].
  intros Ht. apply andb_prop in Ht as [Htext Hc].
  apply String.eqb_eq in Htext. rewrite Htext. now apply IH.
Qed.

Section Classifier.
Context `{Collaborators}.

(** [isErrIgnored] holds exactly when the root cause has one of the
    listed types. *)
Lemma isErrIgnored_iff (err : error) :
  isErrIgnored err = true <->
  exists ty text, Cause err = Plain ty text /\ In ty ignoredTypes.
Proof.
  unfold isErrIgnored. split.
  - destruct (Cause err) as [ty text | text cause]; [|discriminate].
    intros Hi. exists ty, text. split; [reflexivity|].
    destruct ty; simpl; try discriminate; tauto.
  - intros (ty & text & -> & Hin).
    simpl in Hin.
    repeat (destruct Hin as [<- | Hin]; [reflexivity|]).
    destruct Hin.
Qed.
End Classifier.

(** ** [json.Marshal] on a [logEntry] *)

(** The encoder has a failing case: a struct with a channel in it is
    refused. *)
Lemma encodeValue_refuses_channel :
  encodeValue (MStruct [("level", MString "ERROR");
                        ("done", MUnsupported "chan bool")])
  = inr "json: unsupported type: chan bool".
Proof. reflexivity. Qed.

Lemma encodeValue_strings (a : list string) :
  encodeValue (stringsValue a) = inl (stringsJSON a).
Proof.
  destruct a as [|first rest]; [reflexivity|].
  unfold stringsValue, stringsJSON.
  generalize (first :: rest). intros l. cbn [encodeValue].
  enough (Hl : (fix encodeElements (l : list MarshalValue)
                  : list JSON + string :=
                  match l with
                  | [] => inl []
                  | x :: rest =>
                      match encodeValue x with
                      | inl doc =>
                          match encodeElements rest with
                          | inl docs => inl (doc :: docs)
                          | inr err => inr err
                          end
                      | inr err => inr err
                      end
                  end) (map MString l) = inl (map JString l))
    by now rewrite Hl.
  induction l as [|x l IH]; [reflexivity|].
  cbn [map encodeValue]. now rewrite IH.
Qed.

(** A [logEntry] has strings and a slice of strings and nothing else:
    the encoder never refuses it, and the document has the five fields
    in the order of the struct. *)
Lemma Marshal_logEntry (e : logEntry) :
  Marshal e = inl (render (logEntryJSON e)).
Proof.
  unfold Marshal, logEntryValue, logEntryJSON. cbn [encodeValue].
  now rewrite encodeValue_strings.
Qed.

(** ** [logIf] *)

Section LogIf.
Context `{Collaborators}.

Lemma formatJSON_logEntry (e : logEntry) :
  formatJSON e = inl (render (logEntryJSON e)).
Proof. unfold formatJSON. now rewrite Marshal_logEntry. Qed.

Lemma logIf_nil (a : Ambient) (level : Level) (msg : string)
    (data : list value) :
  logIf a level None msg data = ([], Returned).
Proof. reflexivity. Qed.

Lemma logIf_ignored (a : Ambient) (level : Level) (err : error)
    (msg : string) (data : list value) :
  isErrIgnored err = true ->
  logIf a level (Some err) msg data = ([], Returned).
Proof. intros Hi. unfold logIf, ofOption. now rewrite Hi. Qed.

Lemma logIf_logged (a : Ambient) (level : Level) (err : error)
    (msg : string) (data : list value) :
  isErrIgnored err = false ->
  logIf a level (Some err) msg data =
  finish level
    (if json (log a) then formatJSON (entryOf a level err msg data)
     else formatText (entryOf a level err msg data)).
Proof. intros Hi. unfold logIf, ofOption. now rewrite Hi. Qed.

Lemma finish_not_silent (level : Level) (rendered : string + Panic) :
  finish level rendered <> ([], Returned).
Proof. destruct rendered; simpl; [discriminate | discriminate]. Qed.

(** [logIf] does nothing at all exactly on the nil error and on the
    errors the classifier ignores. *)
Lemma logIf_silent_iff (a : Ambient) (level : Level) (err : option error)
    (msg : string) (data : list value) :
  logIf a level err msg data = ([], Returned) <->
  err = None \/ exists e, err = Some e /\ isErrIgnored e = true.
Proof.
  split.
  - destruct err as [e|]; [|now left].
    destruct (isErrIgnored e) eqn:Hi; [right; now exists e|].
    rewrite logIf_logged by exact Hi. intros Hs.
    now apply finish_not_silent in Hs.
  - intros [-> | (e & -> & Hi)]; [reflexivity | now apply logIf_ignored].
Qed.

(** A record is written, and [os.Exit(1)] follows for [Fatal] only,
    whenever the logger is in JSON mode or the trace has an entry. *)
Lemma logIf_emits (a : Ambient) (level : Level) (err : error)
    (msg : string) (data : list value) :
  isErrIgnored err = false ->
  json (log a) = true \/ getTrace (trimStrings a) (stack a) 3 <> [] ->
  exists output,
    (if json (log a) then formatJSON (entryOf a level err msg data)
     else formatText (entryOf a level err msg data)) = inl output
    /\ logIf a level (Some err) msg data =
       ([StdoutWrite (output ++ nl)],
        if (level =? Fatal)%Z then Exited 1 else Returned).
Proof.
  intros Hi Hok. rewrite logIf_logged by exact Hi.
  destruct (json (log a)) eqn:Hj.
  - rewrite formatJSON_logEntry. eexists. split; reflexivity.
  - destruct Hok as [Hok | Hok]; [discriminate|].
    unfold formatText. simpl le_Trace.
    destruct (getTrace (trimStrings a) (stack a) 3) as [|first rest];
      [now destruct Hok|].
    eexists. split; reflexivity.
Qed.

(** In text mode an empty trace ends the call at [trace[0]]. *)
Lemma logIf_text_empty_trace (a : Ambient) (level : Level) (err : error)
    (msg : string) (data : list value) :
  isErrIgnored err = false ->
  json (log a) = false ->
  getTrace (trimStrings a) (stack a) 3 = [] ->
  logIf a level (Some err) msg data = ([], Panicked IndexOutOfRange).
Proof.
  intros Hi Hj Ht. rewrite logIf_logged by exact Hi. rewrite Hj.
  unfold formatText. simpl le_Trace. now rewrite Ht.
Qed.

(** [logIf] at level [Error] never ends in [os.Exit]. *)
Lemma logIf_Error_no_exit (a : Ambient) (err : option error)
    (msg : string) (data : list value) (code : Z) :
  snd (logIf a Error err msg data) <> Exited code.
Proof.
  destruct err as [e|]; [|discriminate].
  destruct (isErrIgnored e) eqn:Hi.
  - rewrite logIf_ignored by exact Hi. discriminate.
  - rewrite logIf_logged by exact Hi.
    destruct (if json (log a) then _ else _); simpl; discriminate.
Qed.

(** [logIf] does not read the quiet flag. *)
Lemma logIf_ignores_quiet (q1 q2 j : bool) (ts : list string)
    (st : list Frame) (now : string) (level : Level) (err : option error)
    (msg : string) (data : list value) :
  logIf {| log := {| quiet := q1; json := j |}; trimStrings := ts;
           stack := st; timeOfError := now |} level err msg data
  = logIf {| log := {| quiet := q2; json := j |}; trimStrings := ts;
             stack := st; timeOfError := now |} level err msg data.
Proof. reflexivity. Qed.

(** The passthrough prints write nothing when the logger is quiet. *)
Lemma quiet_prints_nothing (l : Logger) (format : string)
    (args : list value) :
  quiet l = true -> Println l args = [] /\ Printf l format args = [].
Proof. intros Hq. unfold Println, Printf. now rewrite Hq. Qed.
End LogIf.

(** ** The encoder writes JSON, on one line *)

Lemma exec_app (st : State) (a b : string) :
  exec st (a ++ b) =
  match exec st a with
  | Some st' => exec st' b
  | None => None
  end.
Proof.
  revert st; induction a as [|c a IH]; intros st; simpl; [reflexivity|].
  destruct (step st c); [apply IH | reflexivity].
Qed.

Lemma oneLine_app (a b : string) :
  oneLine (a ++ b) = oneLine a && oneLine b.
Proof.
  induction a as [|c a IH]; simpl; [reflexivity|].
  now rewrite IH, andb_assoc.
Qed.

Ltac each_byte c :=
  destruct c as [[|] [|] [|] [|] [|] [|] [|] [|]].

(** A byte of 0x80 or more stays inside a string. *)
Lemma step_high (key : bool) (stk : list Ctx) (c : ascii) :
  (0x80 <=? byteval c)%N = true ->
  step (InStr key, stk) c = Some (InStr key, stk).
Proof. each_byte c; intros Hc; try discriminate Hc; reflexivity. Qed.

Lemma exec_allHigh (key : bool) (stk : list Ctx) (s : string) :
  allHigh s = true -> exec (InStr key, stk) s = Some (InStr key, stk).
Proof.
  induction s as [|c s IH]; cbn [exec allHigh]; [reflexivity|].
  intros Hs. apply andb_prop in Hs as [Hc Hs].
  rewrite step_high by exact Hc. now apply IH.
Qed.

Lemma oneLine_allHigh (s : string) : allHigh s = true -> oneLine s = true.
Proof.
  induction s as [|c s IH]; simpl; [reflexivity|].
  intros Hs. apply andb_prop in Hs as [Hc Hs]. rewrite (IH Hs), andb_true_r.
  apply N.leb_le in Hc. apply N.leb_le. lia.
Qed.

(** What the encoder writes for a byte below 0x80 keeps the recogniser
    inside the string, and has no control byte. *)
Lemma exec_low_byte (key : bool) (stk : list Ctx) (c : ascii) :
  (byteval c <? 0x80)%N = true ->
  exec (InStr key, stk)
    (if htmlSafe (byteval c) then String c "" else escapeByte c)
  = Some (InStr key, stk).
Proof. each_byte c; intros Hc; try discriminate Hc; reflexivity. Qed.

Lemma oneLine_low_byte (c : ascii) :
  oneLine (if htmlSafe (byteval c) then String c "" else escapeByte c) = true.
Proof. each_byte c; reflexivity. Qed.

(** The second byte of a sequence is a continuation byte in every range
    of [leadByte]. *)
Lemma leadByte_range (b : N) (sz : nat) (lo hi : N) :
  leadByte b = Some (sz, lo, hi) -> (0x80 <= lo)%N.
Proof.
  unfold leadByte.
  repeat match goal with
         | |- context [if ?t then _ else _] => destruct t
         end; intros E; inversion E; subst; lia.
Qed.

(** The bytes [DecodeRuneInString] consumes at a byte of 0x80 or more
    are all of 0x80 or more. *)
Lemma DecodeRune_consumes_high (c : ascii) (s : string) (r : N) (size : nat) :
  (byteval c <? 0x80)%N = false ->
  DecodeRuneInString (String c s) = (r, size) ->
  allHigh (take size (String c s)) = true.
Proof.
  intros Hc. apply N.ltb_ge in Hc.
  assert (H0 : (0x80 <=? byteval c)%N = true) by now apply N.leb_le.
  assert (Hone : allHigh (take 1 (String c s)) = true)
    by (simpl; now rewrite H0).
  unfold DecodeRuneInString.
  destruct (byteval c <? 0x80)%N; [now intros [= <- <-]|].
  destruct (leadByte (byteval c)) as [[[sz lo] hi]|] eqn:Hlead;
    [|now intros [= <- <-]].
  apply leadByte_range in Hlead.
  destruct (String.length (String c s) <? sz)%nat; [now intros [= <- <-]|].
  destruct s as [|c1 s2]; [now intros [= <- <-]|].
  destruct ((byteval c1 <? lo) || (hi <? byteval c1))%N eqn:H1;
    [now intros [= <- <-]|].
  apply orb_false_elim in H1 as [H1 _]. apply N.ltb_ge in H1.
  assert (Hc1 : (0x80 <=? byteval c1)%N = true) by (apply N.leb_le; lia).
  destruct (sz <=? 2)%nat.
  { intros [= <- <-]. simpl. now rewrite H0, Hc1. }
  destruct s2 as [|c2 s3]; [now intros [= <- <-]|].
  destruct (isCont (byteval c2)) eqn:H2; simpl negb; cbv iota;
    [|now intros [= <- <-]].
  apply andb_prop in H2 as [H2 _].
  destruct (sz <=? 3)%nat.
  { intros [= <- <-]. simpl. now rewrite H0, Hc1, H2. }
  destruct s3 as [|c3 s4]; [now intros [= <- <-]|].
  destruct (isCont (byteval c3)) eqn:H3; simpl negb; cbv iota;
    [|now intros [= <- <-]].
  apply andb_prop in H3 as [H3 _].
  intros [= <- <-]. simpl. now rewrite H0, Hc1, H2, H3.
Qed.

Lemma exec_encodeLoop (key : bool) (stk : list Ctx) (fuel : nat) (s : string) :
  exec (InStr key, stk) (encodeLoop fuel s) = Some (InStr key, stk).
Proof.
  revert s; induction fuel as [|fuel IH]; intros s; [reflexivity|].
  destruct s as [|c s]; [reflexivity|].
  cbn [encodeLoop]. cbv zeta.
  destruct (byteval c <? 0x80)%N eqn:Hc.
  - rewrite exec_app, exec_low_byte by exact Hc. apply IH.
  - destruct (DecodeRuneInString (String c s)) as [r size] eqn:Hd.
    destruct ((r =? RuneError)%N && (size =? 1)%nat).
    + change (exec (InStr key, stk) (encodeLoop fuel s)
              = Some (InStr key, stk)).
      apply IH.
    + destruct ((r =? 0x2028) || (r =? 0x2029))%N eqn:Hr.
      * apply orb_prop in Hr as [Hr | Hr]; apply N.eqb_eq in Hr; subst r;
          change (exec (InStr key, stk) (encodeLoop fuel (drop size (String c s)))
                  = Some (InStr key, stk));
          apply IH.
      * rewrite exec_app.
        rewrite exec_allHigh by (eapply DecodeRune_consumes_high; eassumption).
        apply IH.
Qed.

Lemma oneLine_encodeLoop (fuel : nat) (s : string) :
  oneLine (encodeLoop fuel s) = true.
Proof.
  revert s; induction fuel as [|fuel IH]; intros s; [reflexivity|].
  destruct s as [|c s]; [reflexivity|].
  cbn [encodeLoop]. cbv zeta.
  destruct (byteval c <? 0x80)%N eqn:Hc.
  - now rewrite oneLine_app, oneLine_low_byte, IH.
  - destruct (DecodeRuneInString (String c s)) as [r size] eqn:Hd.
    destruct ((r =? RuneError)%N && (size =? 1)%nat).
    + rewrite !oneLine_app, IH. reflexivity.
    + destruct ((r =? 0x2028) || (r =? 0x2029))%N eqn:Hr.
      * rewrite !oneLine_app, IH.
        apply orb_prop in Hr as [Hr | Hr]; apply N.eqb_eq in Hr; subst r;
          reflexivity.
      * rewrite oneLine_app, IH, andb_true_r. apply oneLine_allHigh.
        eapply DecodeRune_consumes_high; eassumption.
Qed.

Lemma exec_encodeString (m : Mode) (stk : list Ctx) (s : string) :
  startsValue m = true ->
  exec (m, stk) (encodeString s) = Some (AfterValue, stk).
Proof.
  intros Hm. unfold encodeString.
  assert (Hq : step (m, stk) dquote = Some (InStr false, stk))
    by (destruct m; try discriminate Hm; reflexivity).
  cbn [exec]. rewrite Hq, exec_app, exec_encodeLoop. reflexivity.
Qed.

Lemma exec_encodeKey (m : Mode) (stk : list Ctx) (s : string) :
  startsKey m = true ->
  exec (m, stk) (encodeString s) = Some (WantColon, stk).
Proof.
  intros Hm. unfold encodeString.
  assert (Hq : step (m, stk) dquote = Some (InStr true, stk))
    by (destruct m; try discriminate Hm; reflexivity).
  cbn [exec]. rewrite Hq, exec_app, exec_encodeLoop. reflexivity.
Qed.

Lemma oneLine_encodeString (s : string) : oneLine (encodeString s) = true.
Proof.
  unfold encodeString. cbn [oneLine].
  rewrite oneLine_app, oneLine_encodeLoop. reflexivity.
Qed.

(** Induction on documents, through their elements and members. *)
Section JSONInduction.
Variable P : JSON -> Prop.
Hypothesis Hnull : P JNull.
Hypothesis Hstring : forall s, P (JString s).
Hypothesis Harray : forall elements, Forall P elements -> P (JArray elements).
Hypothesis Hobject :
  forall members, Forall (fun m => P (snd m)) members -> P (JObject members).

Fixpoint JSON_induction (v : JSON) : P v :=
  match v with
  | JNull => Hnull
  | JString s => Hstring s
  | JArray elements =>
      Harray elements
        ((fix all (l : list JSON) : Forall P l :=
            match l with
            | [] => Forall_nil P
            | x :: rest => Forall_cons x (JSON_induction x) (all rest)
            end) elements)
  | JObject members =>
      Hobject members
        ((fix all (l : list (string * JSON))
            : Forall (fun m => P (snd m)) l :=
            match l with
            | [] => Forall_nil _
            | m :: rest =>
                Forall_cons m (JSON_induction (snd m)) (all rest)
            end) members)
  end.
End JSONInduction.

Lemma Join_cons (x : string) (rest : list string) (sep after : string) :
  Join (x :: rest) sep ++ after =
  x ++ fold_right (fun y acc => sep ++ y ++ acc) after rest.
Proof.
  revert x; induction rest as [|y rest IH]; intros x.
  - reflexivity.
  - change (Join (x :: y :: rest) sep) with (x ++ sep ++ Join (y :: rest) sep).
    rewrite !append_assoc, IH. reflexivity.
Qed.

Lemma exec_more_elements (stk : list Ctx) (l : list JSON) :
  Forall rendersTo l ->
  exec (AfterValue, InArray :: stk)
    (fold_right (fun y acc => "," ++ y ++ acc) "]" (map render l))
  = Some (AfterValue, stk).
Proof.
  induction 1 as [|x l Hx _ IH]; [reflexivity|].
  cbn [map fold_right].
  change ("," ++ render x ++ ?t) with (String "," (render x ++ t)).
  cbn [exec]. change (step (AfterValue, InArray :: stk) ",")
    with (Some (WantValue, InArray :: stk)).
  cbv iota beta. rewrite exec_app, Hx by reflexivity. exact IH.
Qed.

Lemma exec_more_members (stk : list Ctx) (l : list (string * JSON)) :
  Forall (fun m => rendersTo (snd m)) l ->
  exec (AfterValue, InObject :: stk)
    (fold_right (fun y acc => "," ++ y ++ acc) "}"
       (map (fun m => encodeString (fst m) ++ ":" ++ render (snd m)) l))
  = Some (AfterValue, stk).
Proof.
  induction 1 as [|x l Hx _ IH]; [reflexivity|].
  cbn [map fold_right].
  change ("," ++ ?u ++ ?t) with (String "," (u ++ t)).
  cbn [exec]. change (step (AfterValue, InObject :: stk) ",")
    with (Some (WantKey, InObject :: stk)).
  cbv iota beta. rewrite !append_assoc, exec_app, exec_encodeKey by reflexivity.
  change (":" ++ ?t) with (String ":" t).
  cbn [exec]. change (step (WantColon, InObject :: stk) ":")
    with (Some (WantValue, InObject :: stk)).
  cbv iota beta. rewrite exec_app, Hx by reflexivity. exact IH.
Qed.

(** The recogniser reads a rendered document as one value. *)
Lemma exec_render (v : JSON) : rendersTo v.
Proof.
  induction v as [| s | elements IH | members IH] using JSON_induction;
    intros m stk Hm.
  - destruct m; try discriminate Hm; reflexivity.
  - now apply exec_encodeString.
  - cbn [render]. change ("[" ++ ?t) with (String "[" t). cbn [exec].
    replace (step (m, stk) "[") with (Some (WantValueOrClose, InArray :: stk))
      by (destruct m; try discriminate Hm; reflexivity).
    destruct elements as [|x rest]; [reflexivity|].
    inversion IH as [|? ? Hx Hrest]; subst.
    cbn [map]. rewrite Join_cons, exec_app, Hx by reflexivity.
    now apply exec_more_elements.
  - cbn [render]. change ("{" ++ ?t) with (String "{" t). cbn [exec].
    replace (step (m, stk) "{") with (Some (WantKeyOrClose, InObject :: stk))
      by (destruct m; try discriminate Hm; reflexivity).
    destruct members as [|x rest]; [reflexivity|].
    inversion IH as [|? ? Hx Hrest]; subst.
    cbn [map]. rewrite Join_cons, !append_assoc, exec_app.
    rewrite exec_encodeKey by reflexivity.
    change (":" ++ ?t) with (String ":" t).
    cbn [exec]. change (step (WantColon, InObject :: stk) ":")
      with (Some (WantValue, InObject :: stk)).
    cbv iota beta. rewrite exec_app, Hx by reflexivity.
    now apply exec_more_members.
Qed.

(** Whatever the encoder renders is a JSON text. *)
Lemma render_valid (v : JSON) : jsonValid (render v) = true.
Proof.
  unfold jsonValid. now rewrite (exec_render v WantValue []).
Qed.

Lemma oneLine_fold (l : list string) (close : string) :
  Forall (fun s => oneLine s = true) l -> oneLine close = true ->
  oneLine (fold_right (fun y acc => "," ++ y ++ acc) close l) = true.
Proof.
  intros Hl Hc. induction Hl as [|x l Hx _ IH]; [exact Hc|].
  cbn [fold_right]. now rewrite !oneLine_app, Hx, IH.
Qed.

Lemma oneLine_Join (l : list string) (close : string) :
  Forall (fun s => oneLine s = true) l -> oneLine close = true ->
  oneLine (Join l "," ++ close) = true.
Proof.
  intros Hl Hc. destruct Hl as [|x l Hx Hl]; [exact Hc|].
  rewrite Join_cons, oneLine_app, Hx. now apply oneLine_fold.
Qed.

(** And it is written on one line. *)
Lemma render_oneLine (v : JSON) : oneLine (render v) = true.
Proof.
  induction v as [| s | elements IH | members IH] using JSON_induction.
  - reflexivity.
  - apply oneLine_encodeString.
  - cbn [render]. rewrite oneLine_app. apply oneLine_Join; [|reflexivity].
    now apply Forall_map.
  - cbn [render]. rewrite oneLine_app. apply oneLine_Join; [|reflexivity].
    apply Forall_map. eapply Forall_impl; [|exact IH].
    intros m Hm. cbv beta.
    now rewrite !oneLine_app, oneLine_encodeString, Hm.
Qed.

(** ** The numbering of the trace in text mode *)

Lemma spaces_length (n : nat) : String.length (spaces n) = n.
Proof. induction n as [|n IH]; simpl; [reflexivity | now rewrite IH]. Qed.

Lemma append_length (a b : string) :
  String.length (a ++ b) = (String.length a + String.length b)%nat.
Proof. induction a as [|c a IH]; simpl; [reflexivity | now rewrite IH]. Qed.

(** [%8v] fills up to eight bytes and never cuts. *)
Lemma padLeft_length (width : nat) (s : string) :
  String.length (padLeft width s) = Nat.max width (String.length s).
Proof. unfold padLeft. rewrite append_length, spaces_length. lia. Qed.

Section Numbering.
Context `{Collaborators}.

Lemma numberRest_length (i : Z) (l : list string) :
  List.length (numberRest i l) = List.length l.
Proof.
  revert i; induction l as [|e l IH]; intros i; simpl;
    [reflexivity | now rewrite IH].
Qed.

Lemma numberRest_nth (i : Z) (l : list string) (k : nat) (e : string) :
  nth_error l k = Some e ->
  nth_error (numberRest i l) k =
  Some (padLeft 8 (itoa (i + 2 + Z.of_nat k)) ++ ": " ++ e).
Proof.
  revert i k; induction l as [|x l IH]; intros i k Hk.
  - now destruct k.
  - destruct k as [|k]; simpl in Hk |- *.
    + injection Hk as ->. now rewrite Z.add_0_r.
    + rewrite (IH (i + 1)%Z k Hk). do 4 f_equal. lia.
Qed.
End Numbering.

(** ** The records [logIf] writes *)

Section Records.
Context `{Collaborators}.

(** C2 (as the code has it).  For a non-nil error that is not ignored,
    the cause of the record [logIf] renders is the title-cased text of
    the error as it was passed, wrapping layers included; it is the
    title-cased text of the root cause when every wrapping layer gives
    the text of its cause as its own. *)
Theorem cause_is_title_of_error_text (a : Ambient) (level : Level)
    (err : error) (msg : string) (data : list value) :
  isErrIgnored err = false ->
  logIf a level (Some err) msg data =
    finish level
      (if json (log a) then formatJSON (entryOf a level err msg data)
       else formatText (entryOf a level err msg data))
  /\ le_Cause (entryOf a level err msg data) = Title (errorText err)
  /\ (transparent err = true ->
      le_Cause (entryOf a level err msg data)
      = Title (errorText (Cause err))).
Proof.
  intros Hi. split; [now apply logIf_logged|]. split; [reflexivity|].
  intros Ht. cbn [entryOf le_Cause]. now rewrite <- transparent_text.
Qed.

(** C8 (as the code has it).  For a non-nil error that is not ignored,
    the JSON mode writes one line, a JSON text: an object of the five
    members level, message, time, cause and trace in this order, whose
    level is ERROR for [Error] and FATAL for [Fatal], and whose trace
    is the array of the trace entries when there is one and null when
    there is none. *)
Theorem json_record (a : Ambient) (level : Level) (err : error)
    (msg : string) (data : list value) :
  isErrIgnored err = false ->
  json (log a) = true ->
  let doc := logEntryJSON (entryOf a level err msg data) in
  let trace := getTrace (trimStrings a) (stack a) 3 in
  logIf a level (Some err) msg data =
    ([StdoutWrite (render doc ++ nl)],
     if (level =? Fatal)%Z then Exited 1 else Returned)
  /\ oneLine (render doc) = true
  /\ jsonValid (render doc) = true
  /\ memberNames doc = ["level"; "message"; "time"; "cause"; "trace"]
  /\ member "level" doc = Some (JString (Level_String level))
  /\ Level_String Error = "ERROR"
  /\ Level_String Fatal = "FATAL"
  /\ member "trace" doc =
     Some (match trace with
           | [] => JNull
           | _ :: _ => JArray (map JString trace)
           end)
  /\ isStringArray (JArray (map JString trace)) = true.
Proof.
  intros Hi Hj doc trace.
  split.
  { rewrite logIf_logged by exact Hi.
    now rewrite Hj, formatJSON_logEntry. }
  split. { apply render_oneLine. }
  split. { apply render_valid. }
  repeat split.
  cbn [isStringArray]. apply forallb_forall. intros v Hv.
  apply in_map_iff in Hv as (s & <- & _). reflexivity.
Qed.

(** C9.  For a non-nil error that is not ignored, in text mode and
    with a trace of at least one entry, what is written starts with an
    empty line and the Trace: block, whose first entry begins with
    1: and whose entry n, from the second on, begins with n
    right-aligned in eight columns and a colon and a blank; the
    block ends with the header of time, level, message and cause, in
    bold red. *)
Theorem text_record (a : Ambient) (level : Level) (err : error)
    (msg : string) (data : list value) (first : string)
    (rest : list string) :
  isErrIgnored err = false ->
  json (log a) = false ->
  getTrace (trimStrings a) (stack a) 3 = first :: rest ->
  let lines := ("1: " ++ first) :: numberRest 0 rest in
  let header :=
    "[" ++ timeOfError a ++ "] [" ++ Level_String level ++ "] "
      ++ Sprintf msg data ++ " (" ++ Title (errorText err) ++ ")" in
  logIf a level (Some err) msg data =
    ([StdoutWrite
        ((nl ++ "Trace: " ++ Join lines nl ++ nl
            ++ colorRed (colorBold header)) ++ nl)],
     if (level =? Fatal)%Z then Exited 1 else Returned)
  /\ List.length lines = List.length (first :: rest)
  /\ nth_error lines 0 = Some ("1: " ++ first)
  /\ (forall (n : nat) (e : string),
        (2 <= n)%nat ->
        nth_error (first :: rest) (n - 1) = Some e ->
        nth_error lines (n - 1) =
        Some (padLeft 8 (itoa (Z.of_nat n)) ++ ": " ++ e))
  /\ (forall n : Z,
        padLeft 8 (itoa n)
        = spaces (8 - String.length (itoa n)) ++ itoa n
        /\ String.length (padLeft 8 (itoa n))
           = Nat.max 8 (String.length (itoa n))).
Proof.
  intros Hi Hj Ht lines header.
  split.
  { rewrite logIf_logged by exact Hi. rewrite Hj.
    unfold formatText. cbn [entryOf le_Trace le_Time le_Level le_Message
                              le_Cause]. now rewrite Ht. }
  split. { subst lines. cbn [List.length]. now rewrite numberRest_length. }
  split. { reflexivity. }
  split.
  - intros n e Hn He. subst lines.
    destruct n as [|[|n]]; [lia | lia |].
    replace (S (S n) - 1)%nat with (S n) in * by lia.
    cbn [nth_error] in *. rewrite (numberRest_nth 0 rest n e He).
    do 4 f_equal. lia.
  - intros n. split; [reflexivity | apply padLeft_length].
Qed.

(** C10 (as the code has it).  For a non-nil error that is not
    ignored and whose [Error()] returns: in text mode a record is
    written exactly when the trace has an entry, so that the first entry
    is there when it is indexed, and on an empty trace the call ends in
    the index panic with nothing written; in JSON mode a record is
    written whether the trace has an entry or not.  For a value that is
    not ignored and whose [Error()] panics, the call ends there, before
    the trace is taken, and nothing is written in either mode. *)
Theorem record_and_trace (a : Ambient) (level : Level) (err : error)
    (msg : string) (data : list value) :
  isErrIgnored err = false ->
  let trace := getTrace (trimStrings a) (stack a) 3 in
  let result := logIf a level (Returns err) msg data in
  (if json (log a) then
     exists output,
       result = ([StdoutWrite (output ++ nl)],
                 if (level =? Fatal)%Z then Exited 1 else Returned)
   else
     (trace <> [] ->
      exists output,
        result = ([StdoutWrite (output ++ nl)],
                  if (level =? Fatal)%Z then Exited 1 else Returned))
     /\ (trace = [] -> result = ([], Panicked IndexOutOfRange))
     /\ (fst result <> [] -> trace <> []))
  /\ (forall root,
        typeIgnored root = false ->
        logIf a level (Raises root) msg data
        = ([], Panicked ErrorMethodPanic)).
Proof.
  intros Hi trace result. subst result.
  split; [|intros root Hr; cbn [logIf]; now rewrite Hr].
  change (Returns err) with (ofOption (Some err)).
  destruct (json (log a)) eqn:Hj.
  - destruct (logIf_emits a level err msg data Hi) as (output & _ & ->);
      [now left | now exists output].
  - assert (Hempty : trace = [] ->
              logIf a level (Some err) msg data
              = ([], Panicked IndexOutOfRange))
      by (intros Ht; now apply logIf_text_empty_trace).
    split; [|split].
    + intros Ht.
      destruct (logIf_emits a level err msg data Hi) as (output & _ & ->);
        [now right | now exists output].
    + exact Hempty.
    + intros Hw Ht. apply Hw. now rewrite (Hempty Ht).
Qed.
End Records.

(** ** What [logIf] writes, and when *)

Lemma typeIgnored_iff (ty : ErrType) :
  typeIgnored ty = true <-> In ty ignoredTypes.
Proof.
  split.
  - destruct ty; simpl; try discriminate; tauto.
  - simpl. intros Hin.
    repeat (destruct Hin as [<- | Hin]; [reflexivity|]). destruct Hin.
Qed.

Section Emission.
Context `{Collaborators}.

Lemma isErrIgnored_rootType (e : error) :
  isErrIgnored e = true <->
  exists ty, rootType (Returns e) = Some ty /\ In ty ignoredTypes.
Proof.
  rewrite isErrIgnored_iff. cbn [rootType]. split.
  - intros (ty & text & -> & Hin). now exists ty.
  - intros (ty & Hr & Hin).
    destruct (Cause e) as [ty' text | text cause]; [|discriminate].
    injection Hr as ->. now exists ty, text.
Qed.

(** On a value whose [Error()] panics and that is not ignored, [logIf]
    ends in this panic, with nothing written, whatever the mode and the
    level. *)
Lemma logIf_raises (a : Ambient) (level : Level) (root : ErrType)
    (msg : string) (data : list value) :
  typeIgnored root = false ->
  logIf a level (Raises root) msg data = ([], Panicked ErrorMethodPanic).
Proof. intros Hr. cbn [logIf]. now rewrite Hr. Qed.

Lemma logIf_value_silent_iff (a : Ambient) (level : Level) (err : ErrorValue)
    (msg : string) (data : list value) :
  logIf a level err msg data = ([], Returned) <->
  err = NilError \/
  exists ty, rootType err = Some ty /\ In ty ignoredTypes.
Proof.
  destruct err as [|e|root].
  - split; [now left | reflexivity].
  - change (Returns e) with (ofOption (Some e)) at 1.
    rewrite logIf_silent_iff, <- isErrIgnored_rootType. split.
    + intros [Hn | (e' & [= <-] & Hi)]; [discriminate Hn | now right].
    + intros [Hn | Hi]; [discriminate Hn | right; now exists e].
  - cbn [logIf rootType]. destruct (typeIgnored root) eqn:Hr.
    + split; [|reflexivity]. intros _. right. exists root.
      split; [reflexivity | now apply typeIgnored_iff].
    + split; [discriminate|].
      intros [Hn | (ty & [= <-] & Hin)]; [discriminate Hn|].
      apply typeIgnored_iff in Hin. congruence.
Qed.

Lemma logIf_value_Error_no_exit (a : Ambient) (err : ErrorValue)
    (msg : string) (data : list value) (code : Z) :
  snd (logIf a Error err msg data) <> Exited code.
Proof.
  destruct err as [|e|root].
  - discriminate.
  - apply (logIf_Error_no_exit a (Some e)).
  - cbn [logIf]. destruct (typeIgnored root); discriminate.
Qed.

(** C1 (as the code has it).  At every level, [logIf] writes nothing
    and returns exactly when the error is nil or its root cause has
    one of the seven listed types; for every other error it writes a
    record, provided its [Error()] returns and the logger is in JSON
    mode or the trace has an entry; and where [Error()] panics, the
    call ends in this panic with nothing written. *)
Theorem logIf_silent_on_nil_and_ignored_only (a : Ambient) (level : Level)
    (err : ErrorValue) (msg : string) (data : list value) :
  (logIf a level err msg data = ([], Returned) <->
   err = NilError \/
   exists ty, rootType err = Some ty /\ In ty ignoredTypes)
  /\ (forall e,
        err = Returns e ->
        ~ (exists ty, rootType err = Some ty /\ In ty ignoredTypes) ->
        json (log a) = true \/ getTrace (trimStrings a) (stack a) 3 <> [] ->
        exists output,
          logIf a level err msg data =
          ([StdoutWrite (output ++ nl)],
           if (level =? Fatal)%Z then Exited 1 else Returned))
  /\ (forall root,
        err = Raises root ->
        ~ In root ignoredTypes ->
        logIf a level err msg data = ([], Panicked ErrorMethodPanic)).
Proof.
  split; [apply logIf_value_silent_iff|]. split.
  - intros e -> Hnot Hok.
    assert (Hi : isErrIgnored e = false).
    { destruct (isErrIgnored e) eqn:Hi; [|reflexivity].
      apply isErrIgnored_rootType in Hi. now destruct Hnot. }
    destruct (logIf_emits a level e msg data Hi Hok) as (output & _ & Hl).
    now exists output.
  - intros root -> Hnot. apply logIf_raises.
    destruct (typeIgnored root) eqn:Hr; [|reflexivity].
    apply typeIgnored_iff in Hr. now destruct Hnot.
Qed.

(** C5 (as the code has it).  For a non-nil error that is not ignored
    and whose [Error()] returns, in JSON mode or with a trace of at
    least one entry, [logIf] at level [Fatal] writes one record,
    rendered for the mode from the entry whose message is the format
    interpolated with the arguments, and then exits with status 1; at
    level [Error] it never exits, whatever it is given; and on a value
    that is not ignored and whose [Error()] panics, the call at level
    [Fatal] ends in this panic, with nothing written and no exit. *)
Theorem fatal_writes_then_exits (a : Ambient) (err : error)
    (msg : string) (data : list value) :
  isErrIgnored err = false ->
  json (log a) = true \/ getTrace (trimStrings a) (stack a) 3 <> [] ->
  (exists output,
     (if json (log a) then formatJSON (entryOf a Fatal err msg data)
      else formatText (entryOf a Fatal err msg data)) = inl output
     /\ logIf a Fatal (Returns err) msg data =
        ([StdoutWrite (output ++ nl)], Exited 1))
  /\ le_Message (entryOf a Fatal err msg data) = Sprintf msg data
  /\ (forall (err' : ErrorValue) (code : Z),
        snd (logIf a Error err' msg data) <> Exited code)
  /\ (forall root,
        typeIgnored root = false ->
        logIf a Fatal (Raises root) msg data
        = ([], Panicked ErrorMethodPanic)).
Proof.
  intros Hi Hok. split; [|split; [|split]].
  - destruct (logIf_emits a Fatal err msg data Hi Hok) as (output & Hr & Hl).
    exists output. split; [exact Hr | exact Hl].
  - reflexivity.
  - intros err' code. apply logIf_value_Error_no_exit.
  - intros root Hr. now apply logIf_raises.
Qed.

(** C7.  On a quiet logger [Println] and [Printf] write nothing, and
    the quiet flag takes nothing away from [logIf]: whatever it is
    given, [logIf] does the same with the flag set as without it; with
    the flag set it is silent for the nil error and the ignored errors
    only; and it writes the record of every other error whose
    [Error()] returns, in JSON mode or with a trace of at least one
    entry. *)
Theorem quiet_silences_prints_only (j : bool) (ts : list string)
    (st : list Frame) (now : string) (level : Level) (err : ErrorValue)
    (msg : string) (data : list value) (format : string)
    (args : list value) :
  let quietLog := {| quiet := true; json := j |} in
  let loudLog := {| quiet := false; json := j |} in
  let around l :=
    {| log := l; trimStrings := ts; stack := st; timeOfError := now |} in
  Println quietLog args = [] /\ Printf quietLog format args = []
  /\ logIf (around quietLog) level err msg data
     = logIf (around loudLog) level err msg data
  /\ (logIf (around quietLog) level err msg data = ([], Returned) <->
      err = NilError \/
      exists ty, rootType err = Some ty /\ In ty ignoredTypes)
  /\ (forall e,
        err = Returns e ->
        isErrIgnored e = false ->
        j = true \/ getTrace ts st 3 <> [] ->
        exists output,
          logIf (around quietLog) level err msg data =
          ([StdoutWrite (output ++ nl)],
           if (level =? Fatal)%Z then Exited 1 else Returned)).
Proof.
  intros quietLog loudLog around.
  split; [reflexivity|]. split; [reflexivity|].
  split; [now destruct err|].
  split; [apply logIf_value_silent_iff|].
  intros e -> Hi Hok.
  destruct (logIf_emits (around quietLog) level e msg data Hi Hok)
    as (output & _ & Hl).
  now exists output.
Qed.
End Emission.

(** ** The model at work *)

(** C2, against the claim as worded: a wrapping layer with a text of its
    own around a disk error.  The record carries the title-cased text of
    the layer, not that of the root cause. *)
Lemma cause_is_not_root_cause_text :
  isErrIgnored wrappedDiskFull = false
  /\ @errorIf unix (demoAmbient (EnableJSON NewLogger) handlerStack)
       (Some wrappedDiskFull) "volume %s" [VString "disk1"]
     = ([StdoutWrite
           (render
              (JObject
                 [("level", JString "ERROR");
                  ("message", JString "volume disk1");
                  ("time", JString "2017-10-31T08:15:30.123456789Z");
                  ("cause", JString "Write Failed");
                  ("trace",
                   JArray
                     [JString "cmd/server-main.go:201:cmd.serverMain()";
                      JString "main.go:68:main.main()"])])
              ++ nl)],
        Returned)
  /\ @Title unix (errorText (Cause wrappedDiskFull)) = "Disk Full"
  /\ le_Cause (@entryOf unix (demoAmbient (EnableJSON NewLogger) handlerStack)
                 Error wrappedDiskFull "volume %s" [VString "disk1"])
     <> @Title unix (errorText (Cause wrappedDiskFull)).
Proof. repeat split. vm_compute. discriminate. Qed.

(** C2 at a layer that gives the text of its cause as its own. *)
Lemma cause_is_title_of_error_text_witness :
  le_Cause (@entryOf unix (demoAmbient NewLogger handlerStack)
              Error tracedDiskFull "volume %s" [VString "disk1"])
  = @Title unix (errorText tracedDiskFull)
  /\ le_Cause (@entryOf unix (demoAmbient NewLogger handlerStack)
                 Error tracedDiskFull "volume %s" [VString "disk1"])
     = @Title unix (errorText (Cause tracedDiskFull)).
Proof.
  destruct (@cause_is_title_of_error_text unix
              (demoAmbient NewLogger handlerStack) Error tracedDiskFull
              "volume %s" [VString "disk1"] eq_refl) as (_ & Hc & Hroot).
  split; [exact Hc | exact (Hroot eq_refl)].
Defined.

(** C8, against the claim as worded: [go errorIf(err, ...)] in JSON
    mode.  All frames above [errorIf] belong to the runtime, the trace
    stays nil, and the trace member of the record is null, not an
    array. *)
Lemma json_trace_is_null_without_frames :
  isErrIgnored diskFull = false
  /\ @errorIf unix (demoAmbient (EnableJSON NewLogger) goroutineStack)
       (Some diskFull) "write failed" []
     = ([StdoutWrite
           (render
              (JObject
                 [("level", JString "ERROR");
                  ("message", JString "write failed");
                  ("time", JString "2017-10-31T08:15:30.123456789Z");
                  ("cause", JString "Disk Full");
                  ("trace", JNull)])
              ++ nl)],
        Returned)
  /\ isStringArray JNull = false.
Proof. repeat split. Qed.

(** C8 at a call from a handler. *)
Lemma json_record_witness :
  jsonValid
    (render
       (logEntryJSON
          (@entryOf unix (demoAmbient (EnableJSON NewLogger) handlerStack)
             Fatal diskFull "failed: %s" [VString "disk full"]))) = true
  /\ member "level"
       (logEntryJSON
          (@entryOf unix (demoAmbient (EnableJSON NewLogger) handlerStack)
             Fatal diskFull "failed: %s" [VString "disk full"]))
     = Some (JString "FATAL").
Proof.
  destruct (@json_record unix (demoAmbient (EnableJSON NewLogger) handlerStack)
              Fatal diskFull "failed: %s" [VString "disk full"]
              eq_refl eq_refl) as (_ & _ & Hv & _ & Hl & _).
  split; [exact Hv | exact Hl].
Defined.

(** C9 at a call from a handler: the two numbered lines. *)
Lemma text_record_witness :
  nth_error
    (("1: " ++ "cmd/server-main.go:201:cmd.serverMain()")
       :: numberRest 0 ["main.go:68:main.main()"]) (2 - 1)
  = Some (padLeft 8 (itoa 2) ++ ": " ++ "main.go:68:main.main()").
Proof.
  destruct (@text_record unix (demoAmbient NewLogger handlerStack)
              Error diskFull "write failed" []
              "cmd/server-main.go:201:cmd.serverMain()"
              ["main.go:68:main.main()"] eq_refl eq_refl eq_refl)
    as (_ & _ & _ & Hn & _).
  exact (Hn 2%nat "main.go:68:main.main()" (le_n 2) eq_refl).
Defined.

(** C10, against the claim as worded: [go errorIf(err, ...)] in JSON
    mode writes a record, and its trace is empty. *)
Lemma json_record_with_empty_trace :
  isErrIgnored diskFull = false
  /\ @getTrace unix demoTrimStrings goroutineStack 3 = []
  /\ fst (@errorIf unix (demoAmbient (EnableJSON NewLogger) goroutineStack)
            (Some diskFull) "write failed" [])
     = [StdoutWrite
          (render
             (logEntryJSON
                (@entryOf unix
                   (demoAmbient (EnableJSON NewLogger) goroutineStack)
                   Error diskFull "write failed" []))
             ++ nl)]
  /\ le_Trace (@entryOf unix
                 (demoAmbient (EnableJSON NewLogger) goroutineStack)
                 Error diskFull "write failed" []) = [].
Proof. repeat split. Qed.

(** C10 at a call from a handler, in text mode. *)
Lemma record_and_trace_witness :
  exists output,
    @errorIf unix (demoAmbient NewLogger handlerStack)
      (Returns diskFull) "write failed" []
    = ([StdoutWrite (output ++ nl)], Returned).
Proof.
  destruct (@record_and_trace unix (demoAmbient NewLogger handlerStack)
              Error diskFull "write failed" [] eq_refl)
    as ((Hw & _ & _) & _).
  apply Hw. discriminate.
Defined.

(** C1, against the claim as worded: [go errorIf(err, ...)] in text
    mode with an error that is neither nil nor ignored.  The trace is
    empty, [trace[0]] panics, and no record is written. *)
Lemma errorIf_without_frames_writes_nothing :
  isErrIgnored diskFull = false
  /\ @getTrace unix demoTrimStrings goroutineStack 3 = []
  /\ @errorIf unix (demoAmbient NewLogger goroutineStack)
       (Some diskFull) "write failed" []
     = ([], Panicked IndexOutOfRange).
Proof. repeat split. Qed.

(** C5, against the claim as worded: [go fatalIf(err, ...)] in text
    mode.  The call panics at [trace[0]]: no record is written and
    [os.Exit(1)] is not reached. *)
Lemma fatalIf_without_frames_panics_before_exit :
  isErrIgnored diskFull = false
  /\ @fatalIf unix (demoAmbient NewLogger goroutineStack)
       (Some diskFull) "failed: %s" [VString "disk full"]
     = ([], Panicked IndexOutOfRange)
  /\ snd (@fatalIf unix (demoAmbient NewLogger goroutineStack)
            (Some diskFull) "failed: %s" [VString "disk full"])
     <> Exited 1.
Proof. repeat split. discriminate. Qed.

(** A nil pointer held in the interface: [err.Error()] panics before
    the mode is looked at, and nothing is written, in JSON mode as in
    text mode, from a handler as from anywhere. *)
Lemma logIf_on_nil_pointer :
  @errorIf unix (demoAmbient (EnableJSON NewLogger) handlerStack)
    nilPathError "write failed" []
  = ([], Panicked ErrorMethodPanic)
  /\ @fatalIf unix (demoAmbient NewLogger handlerStack)
       nilPathError "write failed" []
     = ([], Panicked ErrorMethodPanic).
Proof. split; reflexivity. Qed.

(** C1 at a call from a handler, in text mode. *)
Lemma logIf_silent_on_nil_and_ignored_only_witness :
  exists output,
    @logIf unix (demoAmbient NewLogger handlerStack) Error
      (Returns diskFull) "write failed" []
    = ([StdoutWrite (output ++ nl)], Returned).
Proof.
  destruct (@logIf_silent_on_nil_and_ignored_only unix
              (demoAmbient NewLogger handlerStack) Error
              (Returns diskFull) "write failed" []) as (_ & Hw & _).
  apply (Hw diskFull eq_refl).
  - intros (ty & Hr & Hin). injection Hr as <-.
    simpl in Hin. repeat (destruct Hin as [Hin | Hin]; [discriminate|]).
    exact Hin.
  - right. discriminate.
Defined.

(** C5 at the scenario of the specification, in text mode. *)
Lemma fatal_writes_then_exits_witness :
  (exists output,
     @logIf unix (demoAmbient NewLogger handlerStack) Fatal
       (Returns diskFull) "failed: %s" [VString "disk full"]
     = ([StdoutWrite (output ++ nl)], Exited 1))
  /\ le_Message (@entryOf unix (demoAmbient NewLogger handlerStack) Fatal
                   diskFull "failed: %s" [VString "disk full"])
     = "failed: disk full".
Proof.
  destruct (@fatal_writes_then_exits unix (demoAmbient NewLogger handlerStack)
              diskFull "failed: %s" [VString "disk full"] eq_refl
              (or_intror (fun E => @nil_cons _ _ _ (eq_sym E))))
    as ((output & _ & Hl) & Hm & _).
  split; [now exists output | exact Hm].
Defined.

(** C7 at a quiet logger in text mode, called from a handler. *)
Lemma quiet_silences_prints_only_witness :
  @Println unix (EnableQuiet NewLogger) [VString "started"] = []
  /\ exists output,
       @logIf unix (demoAmbient (EnableQuiet NewLogger) handlerStack) Error
         (Returns diskFull) "write failed" []
       = ([StdoutWrite (output ++ nl)], Returned).
Proof.
  destruct (@quiet_silences_prints_only unix false demoTrimStrings
              handlerStack "2017-10-31T08:15:30.123456789Z" Error
              (Returns diskFull) "write failed" [] "%s" [VString "started"])
    as (Hp & _ & _ & _ & Hw).
  split; [exact Hp|].
  apply (Hw diskFull eq_refl eq_refl). right. discriminate.
Defined.

(** * Further properties of the file *)

(** ** [getTrace] *)

Section TraceShape.
Context `{Collaborators}.

Lemma appendFrame_keep (ts : list string) (fr : Frame) (trace : list string) :
  appendFrame ts fr trace =
  List.app trace (if keepFrame ts fr then [frameLine ts fr] else []).
Proof.
  unfold appendFrame, keepFrame, frameLine. cbv zeta.
  destruct (negb _ && negb _); [reflexivity | now rewrite app_nil_r].
Qed.

Lemma fold_appendFrame (ts : list string) (frames : list Frame)
    (trace : list string) :
  fold_left (fun t fr => appendFrame ts fr t) frames trace =
  List.app trace (map (frameLine ts) (filter (keepFrame ts) frames)).
Proof.
  revert trace; induction frames as [|fr frames IH]; intros trace.
  - cbn. now rewrite app_nil_r.
  - cbn [fold_left filter]. rewrite IH, appendFrame_keep.
    destruct (keepFrame ts fr); cbn [map].
    + now rewrite <- app_assoc.
    + now rewrite app_nil_r.
Qed.

(** X1.  The trace is made of the frames from [traceLevel] outwards, in
    the order of the stack, without those whose trimmed file begins with
    the autogenerated marker or whose function is one of the runtime,
    each as file, line and function. *)
Theorem getTrace_filters_and_formats (ts : list string) (stack : list Frame)
    (traceLevel : nat) :
  getTrace ts stack traceLevel =
  map (frameLine ts) (filter (keepFrame ts) (skipn traceLevel stack)).
Proof. rewrite getTrace_frames, fold_appendFrame. reflexivity. Qed.

(** X2.  The frames below [traceLevel] never show: whatever they are,
    the trace is that of the frames above them. *)
Theorem getTrace_ignores_inner_frames (ts : list string)
    (inner outer : list Frame) (n : nat) :
  getTrace ts (List.app inner outer) (List.length inner + n) =
  getTrace ts outer n.
Proof.
  rewrite !getTrace_frames. f_equal.
  rewrite skipn_app, skipn_all2 by lia.
  replace (List.length inner + n - List.length inner)%nat with n by lia.
  reflexivity.
Qed.

(** X3.  The trace has at most one entry per frame from [traceLevel] on,
    and none when [traceLevel] is past the end of the stack. *)
Theorem getTrace_bounded (ts : list string) (stack : list Frame) (n : nat) :
  (List.length (getTrace ts stack n) <= List.length stack - n)%nat
  /\ ((List.length stack <= n)%nat -> getTrace ts stack n = []).
Proof.
  rewrite getTrace_frames, fold_appendFrame. cbn [List.app]. split.
  - rewrite length_map, <- (length_skipn n stack). apply filter_length_le.
  - intros Hn. now rewrite skipn_all2 by exact Hn.
Qed.

(** X4.  One level at a time: the trace from a level is the line of the
    frame at this level, if it is kept, before the trace from the next
    level, and it is empty where [runtime.Caller] finds no frame. *)
Theorem getTrace_level_by_level (ts : list string) (stack : list Frame)
    (n : nat) :
  getTrace ts stack n =
  match Caller stack n with
  | Some fr =>
      List.app (if keepFrame ts fr then [frameLine ts fr] else [])
        (getTrace ts stack (S n))
  | None => []
  end.
Proof.
  rewrite !getTrace_frames, !fold_appendFrame. cbn [List.app].
  destruct (Caller stack n) as [fr|] eqn:Hc.
  - rewrite (skipn_Caller stack n fr Hc). cbn [filter].
    now destruct (keepFrame ts fr).
  - unfold Caller in Hc. apply nth_error_None in Hc.
    now rewrite skipn_all2 by exact Hc.
Qed.

(** Every entry of the trace is the line of a kept frame at
    [traceLevel] or above, and every such frame has its line in the
    trace. *)
Lemma getTrace_entries (ts : list string) (stack : list Frame) (n : nat)
    (entry : string) :
  In entry (getTrace ts stack n) <->
  exists fr,
    In fr (skipn n stack) /\ keepFrame ts fr = true
    /\ entry = frameLine ts fr.
Proof.
  rewrite getTrace_frames, fold_appendFrame. cbn [List.app].
  rewrite in_map_iff. split.
  - intros (fr & <- & Hin). apply filter_In in Hin as [Hin Hk].
    now exists fr.
  - intros (fr & Hin & Hk & ->). exists fr. split; [reflexivity|].
    now apply filter_In.
Qed.

Lemma getTrace_nil_iff (ts : list string) (stack : list Frame) (n : nat) :
  getTrace ts stack n = [] <->
  forallb (fun fr => negb (keepFrame ts fr)) (skipn n stack) = true.
Proof.
  rewrite getTrace_frames, fold_appendFrame. cbn [List.app].
  induction (skipn n stack) as [|fr l IH]; cbn [filter forallb map].
  - split; reflexivity.
  - destruct (keepFrame ts fr); cbn [negb andb map].
    + split; discriminate.
    + exact IH.
Qed.

(** X5.  In text mode, for a non-nil value that is not ignored,
    [logIf] ends in one of three ways, each told by the value and the
    stack: it panics in [Error()] exactly when [Error()] does; it panics
    on the index exactly when [Error()] returns and no frame from level
    3 on is kept; and it writes exactly when [Error()] returns and some
    such frame is kept. *)
Theorem text_panic_iff_no_frame_kept (a : Ambient) (level : Level)
    (err : ErrorValue) (msg : string) (data : list value) :
  err <> NilError ->
  ~ (exists ty, rootType err = Some ty /\ In ty ignoredTypes) ->
  json (log a) = false ->
  (logIf a level err msg data = ([], Panicked ErrorMethodPanic) <->
   exists root, err = Raises root)
  /\ (logIf a level err msg data = ([], Panicked IndexOutOfRange) <->
      (exists e, err = Returns e)
      /\ forallb (fun fr => negb (keepFrame (trimStrings a) fr))
           (skipn 3 (stack a)) = true)
  /\ (fst (logIf a level err msg data) <> [] <->
      (exists e, err = Returns e)
      /\ exists fr,
           In fr (skipn 3 (stack a)) /\ keepFrame (trimStrings a) fr = true).
Proof.
  intros Hnil Hnot Hj. rewrite <- getTrace_nil_iff.
  destruct err as [|e|root]; [now destruct Hnil| |].
  - assert (Hi : isErrIgnored e = false).
    { destruct (isErrIgnored e) eqn:Hi; [|reflexivity].
      apply isErrIgnored_rootType in Hi. now destruct Hnot. }
    change (Returns e) with (ofOption (Some e)) at 1 3 5.
    destruct (getTrace (trimStrings a) (stack a) 3) as [|first rest] eqn:Ht.
    + rewrite (logIf_text_empty_trace a level e msg data Hi Hj Ht).
      split; [split; [discriminate | intros [root Hr]; discriminate Hr]|].
      split; [split; [intros _; split; [now exists e | reflexivity]
                     | reflexivity]|].
      split; [now intros Hw|].
      intros (_ & fr & Hin & Hk).
      assert (Hentry : In (frameLine (trimStrings a) fr)
                         (getTrace (trimStrings a) (stack a) 3)).
      { rewrite getTrace_frames, fold_appendFrame. cbn [List.app].
        apply in_map. now apply filter_In. }
      rewrite Ht in Hentry. destruct Hentry.
    + destruct (logIf_emits a level e msg data Hi) as (output & _ & ->).
      { right. rewrite Ht. discriminate. }
      split; [split; [discriminate | intros [root Hr]; discriminate Hr]|].
      split; [split; [discriminate | intros [_ Hn]; discriminate Hn]|].
      split; [|discriminate].
      intros _. split; [now exists e|].
      assert (Hentry : In first (getTrace (trimStrings a) (stack a) 3))
        by (rewrite Ht; now left).
      rewrite getTrace_frames, fold_appendFrame in Hentry.
      cbn [List.app] in Hentry.
      apply in_map_iff in Hentry as (fr & _ & Hin).
      apply filter_In in Hin as [Hin Hk]. now exists fr.
  - assert (Hr : typeIgnored root = false).
    { destruct (typeIgnored root) eqn:Hr; [|reflexivity].
      destruct Hnot. exists root. split; [reflexivity|].
      now apply typeIgnored_iff. }
    rewrite (logIf_raises a level root msg data Hr).
    split; [split; [now exists root | reflexivity]|].
    split; [split; [discriminate | intros [[e He] _]; discriminate He]|].
    split; [now intros Hw | intros [[e He] _]; discriminate He].
Qed.
End TraceShape.

(** Neither the demo error nor the nil pointer is ignored. *)
Lemma diskFull_not_ignored :
  ~ (exists ty, rootType (Returns diskFull) = Some ty /\ In ty ignoredTypes).
Proof.
  intros (ty & Hr & Hin). injection Hr as <-.
  simpl in Hin. repeat (destruct Hin as [Hin | Hin]; [discriminate|]).
  exact Hin.
Qed.

Lemma nilPathError_not_ignored :
  ~ (exists ty, rootType nilPathError = Some ty /\ In ty ignoredTypes).
Proof.
  intros (ty & Hr & Hin). injection Hr as <-.
  simpl in Hin. repeat (destruct Hin as [Hin | Hin]; [discriminate|]).
  exact Hin.
Qed.

(** X5 at a call from a handler, with an error that has a text and with
    a nil pointer. *)
Lemma text_panic_iff_no_frame_kept_witness :
  (fst (@logIf unix (demoAmbient NewLogger handlerStack) Error
          (Returns diskFull) "write failed" []) <> []
   <-> (exists e, Returns diskFull = Returns e)
       /\ exists fr,
            In fr (skipn 3 handlerStack)
            /\ @keepFrame unix demoTrimStrings fr = true)
  /\ @logIf unix (demoAmbient NewLogger handlerStack) Error
       nilPathError "write failed" []
     = ([], Panicked ErrorMethodPanic).
Proof.
  split.
  - refine (proj2 (proj2 (@text_panic_iff_no_frame_kept unix
                     (demoAmbient NewLogger handlerStack) Error
                     (Returns diskFull) "write failed" [] _
                     diskFull_not_ignored eq_refl))).
    discriminate.
  - refine (proj2 (proj1 (@text_panic_iff_no_frame_kept unix
                     (demoAmbient NewLogger handlerStack) Error
                     nilPathError "write failed" [] _
                     nilPathError_not_ignored eq_refl)) _).
    + discriminate.
    + now exists (OtherType "*os.PathError").
Defined.

(** ** [trimTrace] *)

Lemma ReplaceByte_length (s : string) (a b : ascii) :
  String.length (ReplaceByte s a b) = String.length s.
Proof. induction s as [|c s IH]; simpl; [reflexivity | now rewrite IH]. Qed.

Lemma drop_length (n : nat) (s : string) :
  String.length (drop n s) = (String.length s - n)%nat.
Proof.
  revert s; induction n as [|n IH]; intros s.
  - simpl. lia.
  - destruct s as [|c s]; simpl; [reflexivity | apply IH].
Qed.

Lemma drop_suffix (n : nat) (s : string) : exists p, s = p ++ drop n s.
Proof.
  revert s; induction n as [|n IH]; intros s.
  - now exists "".
  - destruct s as [|c s]; [now exists ""|].
    destruct (IH s) as [p Hp]. exists (String c p). simpl. now f_equal.
Qed.

Lemma ReplaceByte_append (s t : string) (a b : ascii) :
  ReplaceByte (s ++ t) a b = ReplaceByte s a b ++ ReplaceByte t a b.
Proof. induction s as [|c s IH]; simpl; [reflexivity | now rewrite IH]. Qed.

Lemma ReplaceByte_fixed_suffix (s t : string) (a b : ascii) :
  ReplaceByte (s ++ t) a b = s ++ t -> ReplaceByte t a b = t.
Proof.
  induction s as [|c s IH]; simpl; [trivial|].
  intros E. injection E as _ E. now apply IH.
Qed.

Section TrimTraceShape.
Context `{Collaborators}.

Lemma ToSlash_fixed_suffix (s t : string) :
  ToSlash (s ++ t) = s ++ t -> ToSlash t = t.
Proof.
  unfold ToSlash. destruct (Ascii.eqb Separator slash); [reflexivity|].
  apply ReplaceByte_fixed_suffix.
Qed.

Lemma ToSlash_length (f : string) : String.length (ToSlash f) = String.length f.
Proof.
  unfold ToSlash. destruct (Ascii.eqb Separator slash); [reflexivity|].
  apply ReplaceByte_length.
Qed.

Lemma FromSlash_length (f : string) :
  String.length (FromSlash f) = String.length f.
Proof.
  unfold FromSlash. destruct (Ascii.eqb Separator slash); [reflexivity|].
  apply ReplaceByte_length.
Qed.

Lemma ToSlash_of_FromSlash (f : string) : ToSlash (FromSlash f) = ToSlash f.
Proof.
  unfold FromSlash, ToSlash.
  destruct (Ascii.eqb Separator slash); [reflexivity|].
  apply ReplaceByte_back.
Qed.

Lemma ToSlash_append (s t : string) : ToSlash (s ++ t) = ToSlash s ++ ToSlash t.
Proof.
  unfold ToSlash. destruct (Ascii.eqb Separator slash); [reflexivity|].
  apply ReplaceByte_append.
Qed.

Lemma TrimPrefix_length (s p : string) :
  (String.length (TrimPrefix s p) <= String.length s)%nat.
Proof.
  unfold TrimPrefix. destruct (HasPrefix s p); [|lia].
  rewrite drop_length. lia.
Qed.

Lemma TrimPrefix_suffix (s p : string) : exists q, s = q ++ TrimPrefix s p.
Proof.
  unfold TrimPrefix. destruct (HasPrefix s p); [apply drop_suffix|].
  now exists "".
Qed.

Lemma trimLoop_length (l : list string) (f : string) :
  (String.length (trimLoop l f) <= String.length f)%nat.
Proof.
  revert f; induction l as [|t l IH]; intros f; cbn [trimLoop]; [lia|].
  etransitivity; [apply IH|].
  etransitivity; [apply TrimPrefix_length|]. now rewrite ToSlash_length.
Qed.

(** X6.  [trimTrace] never returns a longer path than it was given; the
    empty path stays empty. *)
Theorem trimTrace_never_longer (l : list string) (f : string) :
  (String.length (trimTrace l f) <= String.length f)%nat
  /\ trimTrace l "" = "".
Proof.
  assert (Hlen : forall g,
             (String.length (trimTrace l g) <= String.length g)%nat).
  { intros g. unfold trimTrace. rewrite FromSlash_length.
    apply trimLoop_length. }
  split; [apply Hlen|].
  specialize (Hlen ""). destruct (trimTrace l ""); [reflexivity|].
  simpl in Hlen. lia.
Qed.

Lemma trimLoop_suffix (l : list string) (f : string) :
  exists p, ToSlash f = p ++ ToSlash (trimLoop l f).
Proof.
  revert f; induction l as [|t l IH]; intros f; cbn [trimLoop].
  - now exists "".
  - destruct (IH (TrimPrefix (ToSlash f) (ToSlash t))) as [p Hp].
    destruct (TrimPrefix_suffix (ToSlash f) (ToSlash t)) as [q Hq].
    assert (Hg : ToSlash (TrimPrefix (ToSlash f) (ToSlash t))
                 = TrimPrefix (ToSlash f) (ToSlash t)).
    { apply (ToSlash_fixed_suffix q). rewrite <- Hq.
      apply ToSlash_idempotent. }
    exists (q ++ p). rewrite append_assoc, <- Hp, Hg. exact Hq.
Qed.

(** X7.  [trimTrace] only ever cuts at the front: what it returns is,
    separators apart, the end of the path it was given. *)
Theorem trimTrace_returns_a_suffix (l : list string) (f : string) :
  exists p, ToSlash f = p ++ ToSlash (trimTrace l f).
Proof.
  unfold trimTrace. rewrite ToSlash_of_FromSlash. apply trimLoop_suffix.
Qed.

Lemma trimLoop_ToSlash (l : list string) (f : string) :
  FromSlash (trimLoop l (ToSlash f)) = FromSlash (trimLoop l f).
Proof.
  destruct l as [|t l]; cbn [trimLoop].
  - apply FromSlash_ToSlash.
  - now rewrite ToSlash_idempotent.
Qed.

Lemma trimLoop_map_ToSlash (l : list string) (f : string) :
  trimLoop (map ToSlash l) f = trimLoop l f.
Proof.
  revert f; induction l as [|t l IH]; intros f; cbn [trimLoop map];
    [reflexivity|].
  now rewrite ToSlash_idempotent, IH.
Qed.

(** X8.  [trimTrace] does not mind which separator its arguments are
    written with: a path gives the same result in slash form, in native
    form and as it is, the prefixes may be given in slash form, and the
    result is always in native form. *)
Theorem trimTrace_separator_blind (l : list string) (f : string) :
  trimTrace l (ToSlash f) = trimTrace l f
  /\ trimTrace l (FromSlash f) = trimTrace l f
  /\ trimTrace (map ToSlash l) f = trimTrace l f
  /\ FromSlash (trimTrace l f) = trimTrace l f.
Proof.
  unfold trimTrace. repeat split.
  - apply trimLoop_ToSlash.
  - rewrite <- (trimLoop_ToSlash l (FromSlash f)), ToSlash_of_FromSlash.
    apply trimLoop_ToSlash.
  - now rewrite trimLoop_map_ToSlash.
  - apply FromSlash_idempotent.
Qed.

(** One pass either changes nothing but the separators or shortens the
    path. *)
Lemma trimTrace_same_or_shorter (l : list string) (f : string) :
  trimTrace l f = FromSlash f
  \/ (String.length (trimTrace l f) < String.length f)%nat.
Proof.
  revert f; induction l as [|t l IH]; intros f; [now left|].
  rewrite trimTrace_unfold.
  assert (Hsame : trimTrace l (ToSlash f) = FromSlash f
                  \/ (String.length (trimTrace l (ToSlash f))
                      < String.length f)%nat).
  { destruct (IH (ToSlash f)) as [E | L].
    - left. now rewrite E, FromSlash_ToSlash.
    - right. now rewrite ToSlash_length in L. }
  unfold TrimPrefix. destruct (HasPrefix (ToSlash f) (ToSlash t)) eqn:Hp;
    [|exact Hsame].
  destruct (String.length (ToSlash t)) as [|n] eqn:Ht; [exact Hsame|].
  right.
  assert (Hne : (0 < String.length f)%nat).
  { apply prefix_split in Hp. rewrite <- (ToSlash_length f), Hp.
    rewrite append_length, Ht. lia. }
  pose proof (trimLoop_length l (drop (S n) (ToSlash f))) as Hl.
  unfold trimTrace. rewrite FromSlash_length.
  rewrite drop_length, ToSlash_length in Hl. lia.
Qed.

Lemma iter_trimTrace_fixed (l : list string) (q : string) (k : nat) :
  trimTrace l q = q -> Nat.iter k (trimTrace l) q = q.
Proof.
  intros Hq. induction k as [|k IH]; [reflexivity|].
  now rewrite Nat.iter_succ, IH.
Qed.

(** From a path in native form, [k] passes reach a path that a further
    pass leaves alone, for any [k] that is at least the length. *)
Lemma trimTrace_settles_native (l : list string) (k : nat) (q : string) :
  FromSlash q = q -> (String.length q <= k)%nat ->
  trimTrace l (Nat.iter k (trimTrace l) q) = Nat.iter k (trimTrace l) q.
Proof.
  revert q; induction k as [|k IH]; intros q Hq Hk.
  - change (Nat.iter 0 (trimTrace l) q) with q.
    destruct (trimTrace_same_or_shorter l q) as [E | L];
      [now rewrite E | lia].
  - destruct (trimTrace_same_or_shorter l q) as [E | L].
    + rewrite Hq in E. now rewrite (iter_trimTrace_fixed l q (S k) E).
    + replace (Nat.iter (S k) (trimTrace l) q)
        with (Nat.iter k (trimTrace l) (trimTrace l q))
        by (symmetry; apply Nat.iter_succ_r).
      apply IH; [|lia]. unfold trimTrace. apply FromSlash_idempotent.
Qed.

(** X9.  Normalising again and again comes to rest: after one pass and
    as many more as the path is long, a further pass changes nothing. *)
Theorem trimTrace_settles (l : list string) (p : string) :
  trimTrace l (Nat.iter (S (String.length p)) (trimTrace l) p)
  = Nat.iter (S (String.length p)) (trimTrace l) p.
Proof.
  rewrite Nat.iter_succ_r.
  apply trimTrace_settles_native.
  - unfold trimTrace. apply FromSlash_idempotent.
  - unfold trimTrace. rewrite FromSlash_length. apply trimLoop_length.
Qed.
End TrimTraceShape.

(** ** [init] *)

Lemma SplitByte_not_nil (s : string) (sep : ascii) : SplitByte s sep <> [].
Proof.
  destruct s as [|c s]; cbn [SplitByte]; [discriminate|].
  destruct (Ascii.eqb c sep); [discriminate|].
  destruct (SplitByte s sep); discriminate.
Qed.

Lemma SplitByte_length (s : string) (sep : ascii) :
  List.length (SplitByte s sep) = S (CountByte s sep).
Proof.
  induction s as [|c s IH]; cbn [SplitByte CountByte]; [reflexivity|].
  destruct (Ascii.eqb c sep); cbn [List.length]; [now rewrite IH|].
  destruct (SplitByte s sep) as [|piece pieces]; [discriminate IH|].
  exact IH.
Qed.

Lemma SplitByte_Join (s : string) (sep : ascii) :
  Join (SplitByte s sep) (String sep "") = s.
Proof.
  induction s as [|c s IH]; cbn [SplitByte]; [reflexivity|].
  destruct (Ascii.eqb c sep) eqn:Hc.
  - apply Ascii.eqb_eq in Hc. subst c.
    pose proof (SplitByte_not_nil s sep) as Hne.
    destruct (SplitByte s sep) as [|piece pieces]; [now destruct Hne|].
    change (Join ("" :: piece :: pieces) (String sep ""))
      with ("" ++ String sep "" ++ Join (piece :: pieces) (String sep "")).
    now rewrite IH.
  - pose proof (SplitByte_not_nil s sep) as Hne.
    destruct (SplitByte s sep) as [|piece pieces]; [now destruct Hne|].
    destruct pieces as [|next pieces].
    + cbn [Join] in IH |- *. now rewrite IH.
    + change (Join (String c piece :: next :: pieces) (String sep ""))
        with (String c (Join (piece :: next :: pieces) (String sep ""))).
      now rewrite IH.
Qed.

Lemma SplitByte_pieces (s : string) (sep : ascii) :
  Forall (fun piece => CountByte piece sep = O) (SplitByte s sep).
Proof.
  induction s as [|c s IH]; cbn [SplitByte].
  - now repeat constructor.
  - destruct (Ascii.eqb c sep) eqn:Hc.
    + now constructor.
    + destruct (SplitByte s sep) as [|piece pieces].
      * repeat constructor. cbn [CountByte]. now rewrite Hc.
      * inversion IH as [|? ? Hp Hps]; subst. constructor; [|exact Hps].
        cbn [CountByte]. now rewrite Hc.
Qed.

(** X10.  The entries of [GOPATH] that [init] goes through are one more
    than [GOPATH] has list separators, also for an empty [GOPATH]; none
    contains the separator, and joined by it they are [GOPATH] again. *)
Theorem GOPATH_entries (s : string) (sep : ascii) :
  List.length (SplitByte s sep) = S (CountByte s sep)
  /\ Forall (fun piece => CountByte piece sep = O) (SplitByte s sep)
  /\ Join (SplitByte s sep) (String sep "") = s
  /\ SplitByte "" sep = [""].
Proof.
  split; [apply SplitByte_length|]. split; [apply SplitByte_pieces|].
  split; [apply SplitByte_Join | reflexivity].
Qed.

Section InitShape.
Context `{Collaborators} `{Build}.

Lemma fold_append_entries (f : string -> string) (l : list string)
    (acc : list string) :
  fold_left (fun trimStrings goPathString =>
               List.app trimStrings [f goPathString]) l acc
  = List.app acc (map f l).
Proof.
  revert acc; induction l as [|x l IH]; intros acc; cbn [fold_left map].
  - now rewrite app_nil_r.
  - rewrite IH, <- app_assoc. reflexivity.
Qed.

Lemma init_unfold :
  init =
  (FilepathJoin [GOROOT; "src"] ++ String Separator "")
    :: List.app
         (map (fun goPathString =>
                 FilepathJoin [goPathString; "src"] ++ String Separator "")
            (SplitByte GOPATH listSeparator))
         [FilepathJoin ["github.com"; "minio"; "minio"]
            ++ String Separator ""].
Proof.
  unfold init, listSeparator. cbv zeta.
  destruct (String.eqb GOOS "windows"); now rewrite fold_append_entries.
Qed.

(** X11.  [init] leaves in [trimStrings] the entry of GOROOT first, then
    one entry for each entry of [GOPATH] in their order, then the import
    path of the project last: three entries at least, and one more for
    each list separator in [GOPATH]. *)
Theorem init_entries :
  init =
  (FilepathJoin [GOROOT; "src"] ++ String Separator "")
    :: List.app
         (map (fun goPathString =>
                 FilepathJoin [goPathString; "src"] ++ String Separator "")
            (SplitByte GOPATH listSeparator))
         [FilepathJoin ["github.com"; "minio"; "minio"]
            ++ String Separator ""]
  /\ List.length init = (3 + CountByte GOPATH listSeparator)%nat
  /\ listSeparator = (if String.eqb GOOS "windows" then ";" else ":")%char.
Proof.
  split; [apply init_unfold|]. split; [|reflexivity].
  rewrite init_unfold. cbn [List.length].
  rewrite length_app, length_map, SplitByte_length. cbn [List.length]. lia.
Qed.

(** X12.  Every entry [init] leaves in [trimStrings] ends with the
    separator, so that no entry is empty and [trimTrace] cuts at the end
    of a directory name whenever it cuts. *)
Theorem init_entries_end_with_separator :
  Forall (fun trimString =>
            exists dir, trimString = dir ++ String Separator "") init.
Proof.
  rewrite init_unfold. constructor; [now eexists|].
  apply Forall_app. split.
  - apply Forall_map, Forall_forall. intros goPathString _. now eexists.
  - constructor; [now eexists | constructor].
Qed.
End InitShape.

(** With a Go installation in /usr/local/go and a GOPATH of /go on
    Linux, [init] leaves the prefixes used above. *)
Lemma init_demo : @init unix demoBuild = demoTrimStrings.
Proof. reflexivity. Qed.

(** ** How [logIf], [errorIf] and [fatalIf] can end *)

Lemma configureAll_json (calls : list Config) (l : Logger) :
  In CallEnableJSON calls -> json (configureAll calls l) = true.
Proof.
  revert l; induction calls as [|c calls IH]; intros l Hin; [destruct Hin|].
  cbn [configureAll fold_left]. destruct Hin as [-> | Hin].
  - now apply configureAll_json_stays.
  - now apply IH.
Qed.

Lemma configureAll_quiet (c : Config) (calls : list Config) (l : Logger) :
  quiet (configureAll (c :: calls) l) = true.
Proof.
  cbn [configureAll fold_left]. apply configureAll_quiet_stays.
  now destruct c.
Qed.

Section Outcomes.
Context `{Collaborators}.

(** What rendering can give: a text, or the index panic in text mode. *)
Lemma rendered_cases (a : Ambient) (e : logEntry) :
  (exists output,
     (if json (log a) then formatJSON e else formatText e) = inl output)
  \/ ((if json (log a) then formatJSON e else formatText e)
      = inr IndexOutOfRange
      /\ json (log a) = false /\ le_Trace e = []).
Proof.
  destruct (json (log a)).
  - left. rewrite formatJSON_logEntry. now eexists.
  - unfold formatText. destruct (le_Trace e); [now right | left; now eexists].
Qed.

(** X13.  [logIf] ends in one of five ways and no other: it returns
    with nothing written; or it writes one text ending in a newline and
    returns, at a level other than [Fatal]; or it writes one such text
    and exits with status 1, at level [Fatal]; or, in text mode only, it
    panics on the index with nothing written; or it panics in [Error()]
    with nothing written, for a value that is not ignored and whose
    [Error()] panics, in either mode.  It never prints through the
    console, never writes twice, and never ends in the panic on a
    marshalling error. *)
Theorem logIf_outcomes (a : Ambient) (level : Level) (err : ErrorValue)
    (msg : string) (data : list value) :
  logIf a level err msg data = ([], Returned)
  \/ (exists output,
        logIf a level err msg data = ([StdoutWrite (output ++ nl)], Returned)
        /\ level <> Fatal)
  \/ (exists output,
        logIf a level err msg data = ([StdoutWrite (output ++ nl)], Exited 1)
        /\ level = Fatal)
  \/ (logIf a level err msg data = ([], Panicked IndexOutOfRange)
      /\ json (log a) = false
      /\ exists e, err = Returns e)
  \/ (logIf a level err msg data = ([], Panicked ErrorMethodPanic)
      /\ exists root, err = Raises root /\ typeIgnored root = false).
Proof.
  destruct err as [|e|root]; [now left| |].
  - change (Returns e) with (ofOption (Some e)) at 1 2 3 4 5.
    destruct (isErrIgnored e) eqn:Hi; [left; now apply logIf_ignored|].
    rewrite logIf_logged by exact Hi.
    destruct (rendered_cases a (entryOf a level e msg data))
      as [[output ->] | (-> & Hj & _)].
    + cbn [finish]. destruct (level =? Fatal)%Z eqn:Hl.
      * right. right. left. exists output. split; [reflexivity|].
        now apply Z.eqb_eq.
      * right. left. exists output. split; [reflexivity|].
        now apply Z.eqb_neq.
    + right. right. right. left. split; [reflexivity|].
      split; [exact Hj | now exists e].
  - destruct (typeIgnored root) eqn:Hr.
    + left. cbn [logIf]. now rewrite Hr.
    + right. right. right. right.
      split; [now apply logIf_raises | now exists root].
Qed.

(** X14.  Once [EnableJSON] has been called, whatever other calls came
    before or after it, [logIf] panics in one case only: on a value
    that is not ignored and whose [Error()] panics, and the panic is
    that of [Error()].  The index panic of text mode is gone. *)
Theorem only_Error_panics_after_EnableJSON (calls : list Config) (l : Logger)
    (ts : list string) (st : list Frame) (now : string) (level : Level)
    (err : ErrorValue) (msg : string) (data : list value) (p : Panic) :
  In CallEnableJSON calls ->
  snd (logIf {| log := configureAll calls l; trimStrings := ts;
                stack := st; timeOfError := now |} level err msg data)
  = Panicked p
  <-> p = ErrorMethodPanic
      /\ exists root, err = Raises root /\ typeIgnored root = false.
Proof.
  intros Hin. destruct err as [|e|root].
  - split; [discriminate | intros (_ & root & Hr & _); discriminate Hr].
  - change (Returns e) with (ofOption (Some e)) at 1.
    split; [|intros (_ & root & Hr & _); discriminate Hr].
    destruct (isErrIgnored e) eqn:Hi.
    + rewrite logIf_ignored by exact Hi. discriminate.
    + rewrite logIf_logged by exact Hi. cbn [log].
      rewrite (configureAll_json calls l Hin).
      rewrite formatJSON_logEntry. cbn [finish snd].
      destruct (level =? Fatal)%Z; discriminate.
  - cbn [logIf]. destruct (typeIgnored root) eqn:Hr; cbn [snd].
    + split; [discriminate|].
      intros (_ & root' & [= <-] & Hr'). congruence.
    + split.
      * intros [= <-]. split; [reflexivity | now exists root].
      * now intros (-> & _).
Qed.

(** X15.  After any call of [EnableQuiet] or [EnableJSON], and whatever
    calls follow, [Println] and [Printf] print nothing; on the new
    logger each makes its one call of the console with its arguments as
    they came. *)
Theorem prints_pass_until_configured (c : Config) (calls : list Config)
    (l : Logger) (format : string) (args : list value) :
  Println (configureAll (c :: calls) l) args = []
  /\ Printf (configureAll (c :: calls) l) format args = []
  /\ Println NewLogger args = [ConsolePrintln args]
  /\ Printf NewLogger format args = [ConsolePrintf format args].
Proof.
  unfold Println, Printf. rewrite configureAll_quiet. now repeat split.
Qed.

(** X16.  A record is followed by the exit exactly when it carries the
    level FATAL: whenever [logIf] writes, it exits with status 1 if the
    level of the record is FATAL and returns otherwise. *)
Theorem exit_iff_record_says_FATAL (a : Ambient) (level : Level)
    (err : error) (msg : string) (data : list value) (output : string)
    (c : Completion) :
  logIf a level (Some err) msg data = ([StdoutWrite output], c) ->
  (c = Exited 1 <-> le_Level (entryOf a level err msg data) = "FATAL")
  /\ (c = Returned <-> le_Level (entryOf a level err msg data) <> "FATAL").
Proof.
  destruct (isErrIgnored err) eqn:Hi.
  { rewrite logIf_ignored by exact Hi. discriminate. }
  rewrite logIf_logged by exact Hi.
  destruct (rendered_cases a (entryOf a level err msg data))
    as [[o ->] | (-> & _)]; [|discriminate].
  cbn [finish entryOf le_Level]. unfold Level_String.
  intros [= _ <-].
  destruct (level =? Fatal)%Z eqn:Hf.
  - apply Z.eqb_eq in Hf. subst level. cbn.
    intuition (try discriminate; congruence).
  - destruct (level =? Error)%Z;
      intuition (try discriminate; congruence).
Qed.

(** X17.  [fatalIf] does what [errorIf] does up to the exit: one is
    silent when the other is, one panics when the other does, and
    [fatalIf] writes and exits exactly when [errorIf] writes and
    returns. *)
Theorem fatalIf_follows_errorIf (a : Ambient) (err : option error)
    (msg : string) (data : list value) :
  (errorIf a err msg data = ([], Returned) <->
   fatalIf a err msg data = ([], Returned))
  /\ (forall p,
        errorIf a err msg data = ([], Panicked p) <->
        fatalIf a err msg data = ([], Panicked p))
  /\ ((exists output,
         errorIf a err msg data = ([StdoutWrite (output ++ nl)], Returned))
      <->
      (exists output,
         fatalIf a err msg data = ([StdoutWrite (output ++ nl)], Exited 1))).
Proof.
  unfold errorIf, fatalIf. destruct err as [e|].
  2: { rewrite !logIf_nil. split; [reflexivity|].
       split; [intros p; split; discriminate|].
       split; intros [o Ho]; discriminate Ho. }
  destruct (isErrIgnored e) eqn:Hi.
  { rewrite !logIf_ignored by exact Hi. split; [reflexivity|].
    split; [intros p; split; discriminate|].
    split; intros [o Ho]; discriminate Ho. }
  rewrite !logIf_logged by exact Hi.
  destruct (json (log a)) eqn:Hj.
  - rewrite !formatJSON_logEntry. cbn [finish].
    change (Error =? Fatal)%Z with false. change (Fatal =? Fatal)%Z with true.
    cbv iota.
    split; [split; discriminate|].
    split; [intros p; split; discriminate|].
    split; intros _; eexists; reflexivity.
  - unfold formatText. cbn [entryOf le_Trace le_Time le_Level le_Message
                              le_Cause].
    destruct (getTrace (trimStrings a) (stack a) 3) as [|first rest];
      cbn [finish];
      change (Error =? Fatal)%Z with false;
      change (Fatal =? Fatal)%Z with true; cbv iota.
    + split; [split; discriminate|].
      split; [intros p; split; intros E; exact E|].
      split; intros [o Ho]; discriminate Ho.
    + split; [split; discriminate|].
      split; [intros p; split; discriminate|].
      split; intros _; eexists; reflexivity.
Qed.
End Outcomes.

(** X14 at a startup that enables quiet mode and then JSON mode, for a
    goroutine that starts in [errorIf]: an error that has a text does
    not bring the index panic, and a nil pointer brings that of
    [Error()]. *)
Lemma only_Error_panics_after_EnableJSON_witness :
  snd (@logIf unix
         {| log := configureAll [CallEnableQuiet; CallEnableJSON] NewLogger;
            trimStrings := demoTrimStrings; stack := goroutineStack;
            timeOfError := "2017-10-31T08:15:30.123456789Z" |}
         Error (Returns diskFull) "write failed" [])
  <> Panicked IndexOutOfRange
  /\ snd (@logIf unix
            {| log := configureAll [CallEnableQuiet; CallEnableJSON] NewLogger;
               trimStrings := demoTrimStrings; stack := goroutineStack;
               timeOfError := "2017-10-31T08:15:30.123456789Z" |}
            Error nilPathError "write failed" [])
     = Panicked ErrorMethodPanic.
Proof.
  split.
  - intros Hp.
    apply (@only_Error_panics_after_EnableJSON unix
             [CallEnableQuiet; CallEnableJSON]) in Hp;
      [|right; now left].
    destruct Hp as [Hp _]. discriminate Hp.
  - apply (@only_Error_panics_after_EnableJSON unix
             [CallEnableQuiet; CallEnableJSON]); [right; now left|].
    split; [reflexivity|].
    exists (OtherType "*os.PathError"). now split.
Defined.

(** X16 at a fatal call from a handler. *)
Lemma exit_iff_record_says_FATAL_witness :
  le_Level (@entryOf unix (demoAmbient NewLogger handlerStack) Fatal
              diskFull "failed: %s" [VString "disk full"]) = "FATAL".
Proof.
  destruct (@exit_iff_record_says_FATAL unix
              (demoAmbient NewLogger handlerStack) Fatal diskFull
              "failed: %s" [VString "disk full"] _ (Exited 1) eq_refl)
    as [[Hexit _] _].
  exact (Hexit eq_refl).
Defined.

(** ** What a record depends on *)

Section Dependence.
Context `{Collaborators}.

(** X18.  Of an error that is not ignored [logIf] uses the text and
    nothing else: two such errors with the same text, whatever their
    types and wrapping layers, give the same result. *)
Theorem logIf_uses_only_the_text (a : Ambient) (level : Level)
    (err1 err2 : error) (msg : string) (data : list value) :
  isErrIgnored err1 = false ->
  isErrIgnored err2 = false ->
  errorText err1 = errorText err2 ->
  logIf a level (Some err1) msg data = logIf a level (Some err2) msg data.
Proof.
  intros H1 H2 Ht. rewrite !logIf_logged by assumption.
  unfold entryOf. now rewrite Ht.
Qed.

(** X19.  The three innermost frames, those of [getTrace], of [logIf]
    and of the caller of [logIf], never reach the record: [logIf] gives
    the same result whatever they are, and the trace it uses is that of
    the frames above them from the first on. *)
Theorem logIf_ignores_three_frames (l : Logger) (ts : list string)
    (inner inner' outer : list Frame) (now : string) (level : Level)
    (err : option error) (msg : string) (data : list value) :
  List.length inner = 3%nat ->
  List.length inner' = 3%nat ->
  logIf {| log := l; trimStrings := ts; stack := List.app inner outer;
           timeOfError := now |} level err msg data
  = logIf {| log := l; trimStrings := ts; stack := List.app inner' outer;
             timeOfError := now |} level err msg data
  /\ getTrace ts (List.app inner outer) 3 = getTrace ts outer 0.
Proof.
  intros Hi Hi'.
  assert (Ht : forall inr, List.length inr = 3%nat ->
                 getTrace ts (List.app inr outer) 3 = getTrace ts outer 0).
  { intros inr Hl. rewrite !getTrace_frames. f_equal.
    rewrite skipn_app, skipn_all2 by lia. now rewrite Hl. }
  split; [|now apply Ht].
  destruct err as [e|]; [|reflexivity].
  unfold logIf, entryOf. cbn [stack trimStrings log timeOfError].
  now rewrite (Ht inner Hi), (Ht inner' Hi').
Qed.
End Dependence.

(** X18 at an error and the same under a layer that repeats its text. *)
Lemma logIf_uses_only_the_text_witness :
  @logIf unix (demoAmbient NewLogger handlerStack) Error
    (Some diskFull) "write failed" []
  = @logIf unix (demoAmbient NewLogger handlerStack) Error
      (Some tracedDiskFull) "write failed" [].
Proof.
  apply (@logIf_uses_only_the_text unix (demoAmbient NewLogger handlerStack)
           Error diskFull tracedDiskFull "write failed" []); reflexivity.
Defined.

(** X19 at a call through [errorIf] and one through [fatalIf], from the
    same handler. *)
Lemma logIf_ignores_three_frames_witness :
  @getTrace unix demoTrimStrings handlerStack 3
  = @getTrace unix demoTrimStrings (skipn 3 handlerStack) 0.
Proof.
  exact (proj2 (@logIf_ignores_three_frames unix NewLogger demoTrimStrings
                  loggerFrames
                  [frame "x.getTrace" "x.go" 1; frame "x.logIf" "x.go" 2;
                   frame "x.fatalIf" "x.go" 3]
                  (skipn 3 handlerStack) "" Error None "" []
                  eq_refl eq_refl)).
Defined.

(** ** The function name of a frame *)

Section SplitShape.
Context `{Collaborators}.

Lemma afterLastSeparator_None (s : string) :
  afterLastSeparator s = None <-> containsSeparator s = false.
Proof.
  induction s as [|c s IH]; cbn [afterLastSeparator containsSeparator].
  - split; reflexivity.
  - destruct (afterLastSeparator s) as [r|].
    + split; [discriminate|]. intros E. apply orb_false_elim in E as [_ E].
      apply IH in E. discriminate.
    + destruct (IsPathSeparator c); cbn [orb].
      * split; discriminate.
      * split; intros _; [now apply IH | reflexivity].
Qed.

Lemma afterLastSeparator_Some (s r : string) :
  afterLastSeparator s = Some r ->
  containsSeparator r = false
  /\ exists dir c,
       s = dir ++ String c r /\ IsPathSeparator c = true.
Proof.
  revert r; induction s as [|c s IH]; intros r; cbn [afterLastSeparator].
  - discriminate.
  - destruct (afterLastSeparator s) as [r'|] eqn:Hs.
    + intros [= <-]. destruct (IH r' eq_refl) as (Hr & dir & d & -> & Hd).
      split; [exact Hr|]. now exists (String c dir), d.
    + destruct (IsPathSeparator c) eqn:Hc; [|discriminate].
      intros [= <-]. split; [now apply afterLastSeparator_None|].
      now exists "", c.
Qed.

(** X20.  The function name [getTrace] prints is what follows the last
    path separator of the full name, after the volume name: it has no
    separator in it, and before it the full name either ends or has a
    separator. *)
Theorem SplitFile_is_last_element (path : string) :
  containsSeparator (SplitFile path) = false
  /\ (drop (volumeNameLen path) path = SplitFile path
      \/ exists dir c,
           drop (volumeNameLen path) path = dir ++ String c (SplitFile path)
           /\ IsPathSeparator c = true)
  /\ (containsSeparator (drop (volumeNameLen path) path) = false ->
      SplitFile path = drop (volumeNameLen path) path).
Proof.
  unfold SplitFile. cbv zeta.
  destruct (afterLastSeparator (drop (volumeNameLen path) path)) as [r|] eqn:Hs.
  - destruct (afterLastSeparator_Some _ _ Hs) as (Hr & dir & c & Hd & Hc).
    split; [exact Hr|]. split.
    + right. now exists dir, c.
    + intros Hno. apply afterLastSeparator_None in Hno. congruence.
  - split; [now apply afterLastSeparator_None|]. split; [now left | reflexivity].
Qed.
End SplitShape.

(** ** Reading back what the encoder writes *)

Lemma append_empty_r (s : string) : s ++ "" = s.
Proof. induction s as [|c s IH]; simpl; [reflexivity | now rewrite IH]. Qed.

Lemma unescape_low_byte (c : ascii) (rest : string) :
  (byteval c <? 0x80)%N = true ->
  unescape ((if htmlSafe (byteval c) then String c "" else escapeByte c) ++ rest)
  = option_map (String c) (unescape rest).
Proof.
  each_byte c; intros Hc; try discriminate Hc;
    cbn; destruct (unescape rest); reflexivity.
Qed.

Lemma option_map_append (a : ascii) (s : string) (o : option string) :
  option_map (String a) (option_map (append s) o)
  = option_map (append (String a s)) o.
Proof. now destruct o. Qed.

Lemma unescape_encodeLoop (fuel : nat) (s rest : string) :
  allLow s = true -> (String.length s <= fuel)%nat ->
  unescape (encodeLoop fuel s ++ rest) = option_map (append s) (unescape rest).
Proof.
  revert s; induction fuel as [|fuel IH]; intros s Hs Hf.
  - destruct s; [|simpl in Hf; lia]. cbn. now destruct (unescape rest).
  - destruct s as [|c s]; [cbn; now destruct (unescape rest)|].
    cbn [allLow] in Hs. apply andb_prop in Hs as [Hc Hs].
    cbn [encodeLoop]. cbv zeta. rewrite Hc.
    rewrite append_assoc, unescape_low_byte by exact Hc.
    rewrite IH by (try assumption; simpl in Hf; lia).
    apply option_map_append.
Qed.

(** X21.  Text of bytes below 0x80 comes back as it was: the string
    literal the encoder writes for it reads back to the same bytes. *)
Theorem ascii_text_reads_back (s : string) :
  allLow s = true -> unquote (encodeString s) = Some s.
Proof.
  intros Hs. unfold encodeString, unquote.
  change (Ascii.eqb dquote dquote) with true. cbv iota.
  rewrite unescape_encodeLoop by (try assumption; lia).
  cbn. now rewrite append_empty_r.
Qed.

(** A byte of 0x80 or more that only bytes below 0x80 follow starts no
    rune. *)
Lemma DecodeRune_stray (c : ascii) (rest : string) :
  (byteval c <? 0x80)%N = false -> allLow rest = true ->
  DecodeRuneInString (String c rest) = (RuneError, 1%nat).
Proof.
  intros Hc Hrest. unfold DecodeRuneInString. rewrite Hc.
  destruct (leadByte (byteval c)) as [[[sz lo] hi]|] eqn:Hlead;
    [|reflexivity].
  apply leadByte_range in Hlead.
  destruct (String.length (String c rest) <? sz)%nat; [reflexivity|].
  destruct rest as [|c1 rest]; [reflexivity|].
  cbn [allLow] in Hrest. apply andb_prop in Hrest as [H1 _].
  apply N.ltb_lt in H1.
  replace (byteval c1 <? lo)%N with true by (symmetry; apply N.ltb_lt; lia).
  reflexivity.
Qed.

Lemma encodeLoop_low_prefix (a rest : string) (fuel : nat) :
  allLow a = true ->
  encodeLoop (String.length a + fuel) (a ++ rest)
  = encodeLoop (String.length a) a ++ encodeLoop fuel rest.
Proof.
  induction a as [|c a IH]; intros Ha; [reflexivity|].
  cbn [allLow] in Ha. apply andb_prop in Ha as [Hc Ha].
  cbn [String.length Nat.add append encodeLoop]. cbv zeta. rewrite Hc.
  now rewrite IH, append_assoc.
Qed.

(** X22.  Text that is not UTF-8 does not come back as it was: a byte of
    0x80 or more between bytes below 0x80 is written as the escape of
    U+FFFD, whatever byte it was, and reads back as the three bytes of
    that character. *)
Theorem stray_byte_reads_back_as_replacement (a b : string) (c : ascii) :
  allLow a = true -> allLow b = true -> (byteval c <? 0x80)%N = false ->
  unquote (encodeString (a ++ String c b))
  = Some (a ++ utf8Bytes RuneError ++ b)
  /\ a ++ utf8Bytes RuneError ++ b <> a ++ String c b.
Proof.
  intros Ha Hb Hc. split.
  - unfold encodeString, unquote.
    change (Ascii.eqb dquote dquote) with true. cbv iota.
    rewrite append_length. cbn [String.length].
    rewrite encodeLoop_low_prefix by exact Ha.
    cbn [encodeLoop]. cbv zeta. rewrite Hc.
    rewrite (DecodeRune_stray c b Hc Hb).
    change ((RuneError =? RuneError)%N && (1 =? 1)%nat) with true. cbv iota.
    rewrite append_assoc, unescape_encodeLoop by (try assumption; lia).
    rewrite !append_assoc.
    change (unescape ("\uff" ++ "fd" ++ ?t))
      with (option_map (append (utf8Bytes RuneError)) (unescape t)).
    rewrite unescape_encodeLoop by (try assumption; lia).
    cbn. now rewrite append_empty_r.
  - intros E.
    assert (Hlen : String.length (a ++ utf8Bytes RuneError ++ b)
                   = String.length (a ++ String c b)) by now rewrite E.
    rewrite !append_length in Hlen. cbn in Hlen. lia.
Qed.

(** X21 at a short text. *)
Lemma ascii_text_reads_back_witness :
  unquote (encodeString "x<5 & y") = Some "x<5 & y".
Proof. apply (ascii_text_reads_back "x<5 & y"). reflexivity. Defined.

(** X22 at a byte that starts no rune. *)
Lemma stray_byte_reads_back_as_replacement_witness :
  unquote (encodeString ("a" ++ String "255"%char "b"))
  = Some ("a" ++ utf8Bytes RuneError ++ "b").
Proof.
  exact (proj1 (stray_byte_reads_back_as_replacement "a" "b" "255"%char
                  eq_refl eq_refl eq_refl)).
Defined.
